(** * Contributing developer count: a model of github_contributor_count.py

    The script walks the paginated commit listing of each repository,
    classifies commits as bot or human, keeps one contributor per lower-cased
    email and merges the per-repository results.  This development embeds
    the functions of the script as Rocq functions and proves the properties
    of the fetch, extraction and aggregation core.

    Conventions of the embedding.
    - A value decoded from JSON is a [json]; a Python [dict] read from JSON is
      an association list whose first binding of a key is the live one.
    - A Python [str] is the list of its code points.  [str.isspace],
      [str.strip] and [int] follow the tables of CPython 3.11 (Unicode 14).
      [str.lower] depends on the case mappings of the Unicode database,
      which are not reproduced: it is a parameter of the development, the
      class [Lower], known by three of its laws.  Examples on ASCII text
      are run with the lowering of the letters A-Z ([ascii_only]), with
      which every lowering agrees on such text; an example outside ASCII
      is run with a lowering that knows the capitals of Latin-1
      ([latin1]).
    - Code that can raise returns a [result]; the loops thread their state
      explicitly and record what they log, fetch and sleep in a trace.
    - The [debug] flag and the progress bar only select what is printed on
      the console; they are left out.  So is the building of the text of
      the log lines, except where it can raise. *)

From Stdlib Require Import ZArith NArith Ascii String.
From stdpp Require Import base list strings gmap.

Set Warnings "-register-all".
Open Scope string_scope.
Open Scope list_scope.
Open Scope nat_scope.

(** ** Python values, exceptions and the string primitives the script uses *)

Module Py.

(** A code point, and a [str]. *)
Abbreviation char := N.
Abbreviation str := (list N).

(** String and character literals, which are ASCII text. *)
Definition lit (s : string) : str := N_of_ascii <$> list_ascii_of_string s.
Coercion lit : string >-> list.

Definition chr (a : ascii) : char := N_of_ascii a.
Coercion chr : ascii >-> N.

Inductive json :=
| JNull
| JBool (b : bool)
| JNum (n : Z)
| JStr (s : str)
| JArr (xs : list json)
| JObj (kvs : list (str * json)).

(** The exceptions that occur.  [Timeout] and [HTTPError] are subclasses of
    [requests.exceptions.RequestException]; [RequestException] stands for
    every other member of that family (connection errors, a body that is
    not JSON, ...).  The remaining ones are Python built-ins. *)
Inductive exn :=
| Timeout
| HTTPError
| RequestException
| AttributeError
| IndexError
| TypeError
| ValueError
| OverflowError
| OSError.

Inductive result (A : Type) :=
| Ok (a : A)
| Raise (e : exn).
Arguments Ok {A} a.
Arguments Raise {A} e.

#[export] Instance result_ret : MRet result := λ A a, Ok a.
#[export] Instance result_bind : MBind result := λ A B f m,
  match m with
  | Ok a => f a
  | Raise e => Raise e
  end.

Definition is_Timeout (e : exn) : bool :=
  match e with Timeout => true | _ => false end.

Definition is_RequestException (e : exn) : bool :=
  match e with
  | Timeout | HTTPError | RequestException => true
  | _ => false
  end.

(** [bool(v)]: the truth value Python gives a decoded JSON value. *)
Definition truthy (v : json) : bool :=
  match v with
  | JNull => false
  | JBool b => b
  | JNum n => negb (n =? 0)%Z
  | JStr s => match s with [] => false | _ => true end
  | JArr xs => match xs with [] => false | _ => true end
  | JObj kvs => match kvs with [] => false | _ => true end
  end.

Fixpoint assoc {A} (k : str) (kvs : list (str * A)) : option A :=
  match kvs with
  | [] => None
  | (k', v) :: rest => if decide (k = k') then Some v else assoc k rest
  end.

(** [v.get(k, d)]: only a [dict] has the method. *)
Definition get (v : json) (k : str) (d : json) : result json :=
  match v with
  | JObj kvs => Ok (default d (assoc k kvs))
  | _ => Raise AttributeError
  end.

(** [v == s] for a string literal [s]. *)
Definition eq_str (v : json) (s : str) : bool :=
  match v with
  | JStr t => bool_decide (t = s)
  | _ => false
  end.

(** The lowering of the letters A-Z, and the strings of ASCII text. *)
Definition ascii_lower_char (c : char) : char :=
  if ((65 <=? c) && (c <=? 90))%N then (c + 32)%N else c.

Definition ascii_lower (s : str) : str := ascii_lower_char <$> s.

Definition is_ascii (s : str) : Prop := Forall (λ c, (c < 128)%N) s.

(** [s.lower()].  What is used of it: on ASCII text it lowers the letters
    A-Z; lowering twice is lowering once; and an ASCII tail of a string is
    lowered on its own, whatever precedes it (the one mapping of
    [str.lower] that looks at the neighbours of a character is that of the
    capital sigma, which is not ASCII). *)
Class Lower := {
  lower : str → str;
  lower_ascii s : is_ascii s → lower s = ascii_lower s;
  lower_idemp s : lower (lower s) = lower s;
  lower_ascii_suffix p t :
    is_ascii t → ∃ p', lower (p ++ t) = p' ++ ascii_lower t
}.

(** The lowering that knows no letters but A-Z. *)
Definition ascii_only : Lower.
Proof.
  refine {| lower := ascii_lower |}.
  - reflexivity.
  - intros s. unfold ascii_lower. rewrite <- list_fmap_compose.
    apply list_fmap_ext. intros _ c _. unfold compose, ascii_lower_char.
    destruct ((65 <=? c) && (c <=? 90))%N eqn:E; [|by rewrite E].
    apply andb_prop in E as [E1 E2].
    apply N.leb_le in E1. apply N.leb_le in E2.
    replace (c + 32 <=? 90)%N with false; [by rewrite andb_false_r|].
    symmetry. apply N.leb_gt. apply N.lt_le_trans with (65 + 32)%N;
      [reflexivity | by apply N.add_le_mono_r].
  - intros p t _. exists (ascii_lower p). apply fmap_app.
Defined.

(** A lowering that knows the capital letters of Latin-1 as well: it is
    [str.lower] on text whose code points are all below 256. *)
Definition latin1_lower_char (c : char) : char :=
  if (((65 <=? c) && (c <=? 90)) ||
      ((192 <=? c) && (c <=? 222) && negb (c =? 215)))%N
  then (c + 32)%N else c.

Definition latin1 : Lower.
Proof.
  refine {| lower := fmap latin1_lower_char |}.
  - intros s Hs. apply Forall_fmap_ext_1. eapply Forall_impl; [exact Hs|].
    intros c Hc. simpl in Hc. unfold latin1_lower_char, ascii_lower_char.
    replace ((192 <=? c) && (c <=? 222) && negb (c =? 215))%N with false;
      [by rewrite orb_false_r|].
    symmetry. apply andb_false_intro1, andb_false_intro1, N.leb_gt.
    apply N.lt_trans with 128%N; [done|reflexivity].
  - intros s. rewrite <- list_fmap_compose.
    apply list_fmap_ext. intros _ c _. unfold compose, latin1_lower_char.
    destruct (((65 <=? c) && (c <=? 90)) ||
              ((192 <=? c) && (c <=? 222) && negb (c =? 215)))%N eqn:E;
      [|by rewrite E].
    replace (((65 <=? c + 32) && (c + 32 <=? 90)) ||
             ((192 <=? c + 32) && (c + 32 <=? 222) && negb (c + 32 =? 215)))%N
      with false; [done|].
    symmetry. apply orb_false_intro.
    + apply orb_prop in E as [E|E].
      * apply andb_prop in E as [E1 E2]. apply N.leb_le in E1.
        apply andb_false_intro2, N.leb_gt.
        apply N.lt_le_trans with (65 + 32)%N;
          [reflexivity|by apply N.add_le_mono_r].
      * apply andb_prop in E as [E _]. apply andb_prop in E as [E1 _].
        apply N.leb_le in E1.
        apply andb_false_intro2, N.leb_gt.
        apply N.lt_le_trans with (192 + 32)%N;
          [reflexivity|by apply N.add_le_mono_r].
    + apply orb_prop in E as [E|E].
      * apply andb_prop in E as [_ E2]. apply N.leb_le in E2.
        apply andb_false_intro1, andb_false_intro1, N.leb_gt.
        apply N.le_lt_trans with (90 + 32)%N;
          [by apply N.add_le_mono_r|reflexivity].
      * apply andb_prop in E as [E _]. apply andb_prop in E as [E1 _].
        apply N.leb_le in E1.
        apply andb_false_intro1, andb_false_intro2, N.leb_gt.
        apply N.lt_le_trans with (192 + 32)%N;
          [reflexivity|by apply N.add_le_mono_r].
  - intros p t Ht. exists (latin1_lower_char <$> p). rewrite fmap_app.
    f_equal. apply Forall_fmap_ext_1. eapply Forall_impl; [exact Ht|].
    intros c Hc. simpl in Hc. unfold latin1_lower_char, ascii_lower_char.
    replace ((192 <=? c) && (c <=? 222) && negb (c =? 215))%N with false;
      [by rewrite orb_false_r|].
    symmetry. apply andb_false_intro1, andb_false_intro1, N.leb_gt.
    apply N.lt_trans with 128%N; [done|reflexivity].
Defined.

(** [v.lower()]: only a [str] has the method. *)
Definition str_lower `{!Lower} (v : json) : result str :=
  match v with
  | JStr s => Ok (lower s)
  | _ => Raise AttributeError
  end.

Definition endswith (s suffix : str) : bool :=
  let n := length s in
  let m := length suffix in
  (m <=? n) && bool_decide (drop (n - m) s = suffix).

(** [s.split(sep)] for a one-character separator. *)
Fixpoint split (sep : char) (s : str) : list str :=
  match s with
  | [] => [[]]
  | c :: s' =>
      if (c =? sep)%N then [] :: split sep s'
      else match split sep s' with
           | [] => [[c]]
           | w :: ws => (c :: w) :: ws
           end
  end.

(** [c.isspace()]: the white space of Unicode 14, that is U+0009 to
    U+000D, U+001C to U+0020, U+0085, U+00A0, U+1680, U+2000 to U+200A,
    U+2028, U+2029, U+202F, U+205F and U+3000. *)
Definition isspace (c : char) : bool :=
  (((9 <=? c) && (c <=? 13)) || ((28 <=? c) && (c <=? 32)) ||
   (c =? 133) || (c =? 160) || (c =? 5760) ||
   ((8192 <=? c) && (c <=? 8202)) || (c =? 8232) || (c =? 8233) ||
   (c =? 8239) || (c =? 8287) || (c =? 12288))%N.

Fixpoint lstrip_with (p : char → bool) (s : str) : str :=
  match s with
  | [] => []
  | c :: s' => if p c then lstrip_with p s' else s
  end.

Fixpoint rstrip_with (p : char → bool) (s : str) : str :=
  match s with
  | [] => []
  | c :: s' =>
      match rstrip_with p s' with
      | [] => if p c then [] else [c]
      | r => c :: r
      end
  end.

Definition strip_with (p : char → bool) (s : str) : str :=
  rstrip_with p (lstrip_with p s).

(** [s.strip()], and [s.strip(q)] for [q] the double-quote character
    (code 34). *)
Definition strip (s : str) : str := strip_with isspace s.
Definition strip_quotes (s : str) : str := strip_with (λ c, (c =? 34)%N) s.

Fixpoint drop_last (s : str) : str :=
  match s with
  | [] => []
  | [c] => []
  | c :: s' => c :: drop_last s'
  end.

(** [s[1:-1]]. *)
Definition slice_1_m1 (s : str) : str :=
  match s with
  | [] => []
  | _ :: s' => drop_last s'
  end.

(** [xs[i]] on a list. *)
Definition index {A} (xs : list A) (i : nat) : result A :=
  match xs !! i with
  | Some x => Ok x
  | None => Raise IndexError
  end.

(** The decimal digits of Unicode 14 come in runs of ten consecutive code
    points, zero to nine; these are the zeros. *)
Definition decimal_zeros : list char :=
  [48; 1632; 1776; 1984; 2406; 2534; 2662; 2790; 2918; 3046; 3174; 3302;
   3430; 3558; 3664; 3792; 3872; 4160; 4240; 6112; 6160; 6470; 6608;
   6784; 6800; 6992; 7088; 7232; 7248; 42528; 43216; 43264; 43472; 43504;
   43600; 44016; 65296; 66720; 68912; 69734; 69872; 69942; 70096; 70384;
   70736; 70864; 71248; 71360; 71472; 71904; 72016; 72784; 73040; 73120;
   92768; 92864; 93008; 120782; 120792; 120802; 120812; 120822; 123200;
   123632; 125264; 130032]%N.

(** The value of a decimal digit. *)
Definition digit (c : char) : option Z :=
  (λ zero, Z.of_N (c - zero)) <$>
  List.find (λ zero, (zero <=? c) && (c <? zero + 10))%N decimal_zeros.

(** The digits of an integer literal after its first digit: digits, with
    single underscores allowed between two digits. *)
Fixpoint digits_from (acc : Z) (s : str) : option Z :=
  match s with
  | [] => Some acc
  | c :: r =>
      match digit c with
      | Some d => digits_from (10 * acc + d) r
      | None =>
          if (c =? "_"%char)%N then
            match r with
            | c' :: r' =>
                match digit c' with
                | Some d => digits_from (10 * acc + d) r'
                | None => None
                end
            | [] => None
            end
          else None
      end
  end.

Definition digits (s : str) : option Z :=
  match s with
  | c :: r => d ← digit c; digits_from d r
  | [] => None
  end.

(** The white space [int] removes around a literal: that of [isspace]
    but for the four separators U+001C to U+001F. *)
Definition int_space (c : char) : bool :=
  isspace c && negb ((28 <=? c) && (c <=? 31))%N.

(** The longest literal [int] converts, in digits
    ([sys.get_int_max_str_digits()] as CPython sets it). *)
Definition MAX_STR_DIGITS : nat := 4300.

(** [int(s)] on a [str], base ten: [None] stands for [ValueError]. *)
Definition int_of_str (s : str) : option Z :=
  let t := strip_with int_space s in
  if MAX_STR_DIGITS <? length (filter (λ c, is_Some (digit c)) t) then None
  else if decide (head t = Some (chr "-")) then Z.opp <$> digits (tail t)
  else if decide (head t = Some (chr "+")) then digits (tail t)
  else digits t.

(** The elements [list.extend(v)] appends: the items of a list, the keys
    of a dict, the characters of a string; other values are not iterable. *)
Definition iterate (v : json) : result (list json) :=
  match v with
  | JArr xs => Ok xs
  | JObj kvs => Ok (JStr <$> kvs.*1)
  | JStr s => Ok ((λ c, JStr [c]) <$> s)
  | _ => Raise TypeError
  end.

(** [now + timedelta(seconds=wait)] for a [datetime] [now], counted in
    seconds from the first instant [datetime] can hold: the sum must fall
    in the years 1 to 9999. *)
Definition DATETIME_END : Z := 315537897600.

Definition datetime_add (now wait : Z) : result Z :=
  if ((0 <=? now + wait) && (now + wait <? DATETIME_END))%Z
  then Ok (now + wait)%Z
  else Raise OverflowError.

(** [time.sleep(secs)] for an integer: a duration that does not fit the
    nanosecond clock of the interpreter is an [OverflowError], a negative
    one a [ValueError], and one the system call refuses an [OSError];
    [limit] is the longest sleep the system accepts. *)
Definition SLEEP_MAX : Z := 9223372036.

Definition time_sleep (limit secs : Z) : result unit :=
  if (SLEEP_MAX <? Z.abs secs)%Z then Raise OverflowError
  else if (secs <? 0)%Z then Raise ValueError
  else if (limit <? secs)%Z then Raise OSError
  else Ok tt.

End Py.
Import Py.

(** ** What the script does to the outside world

    [log] writes a line of a given type; [requests.get] and [time.sleep]
    are the other two effects.  Messages are kept as structured values
    rather than as the formatted text. *)

Inductive log_type := INFO | WARNING | ERROR | TRACEBACK.

Inductive message :=
| SkippingCommit (commit : json)
| IsBot (name : json) (email repo : str)
| AddingContributor (name : json) (email repo : str)
| FetchingCommits (url : str)
| NotFound
| RateLimitExceeded (wait_time : Z)
| Fetched (count total : nat)
| MaxRetriesExceeded
| TimedOut (backoff_time : Z)
| ErrorFetching (e : exn)
| ProcessingRepository (repo : str)
| ErrorProcessing (repo : str) (e : exn)
| Traceback (e : exn).

Inductive event :=
| Log (t : log_type) (m : message)
| Get (url : str)
| Sleep (seconds : Z).

(** [ERRORS_WARNINGS] after a run that logged [tr]. *)
Definition errors_warnings (tr : list event) : bool :=
  existsb (λ ev, match ev with
                 | Log ERROR _ | Log WARNING _ => true
                 | _ => false
                 end) tr.

(** ** Contributor extraction *)

(** [commit.get("commit", {}).get("author", {})], the inner author
    metadata, which both functions below read. *)
Definition inner_author (commit : json) : result json :=
  inner ← get commit "commit" (JObj []);
  get inner "author" (JObj []).

Record contributor := {
  name : json;
  email : str;
  last_commit : json
}.

(** The two dictionaries of [process_commits_and_contributors] and the
    lines logged so far.  [contributors] keeps its keys in insertion order,
    as a Python dict does; [bots] is only ever used as a set. *)
Record extraction := {
  contributors : list (str * contributor);
  bots : gset str;
  logged : list event
}.

Definition log_extraction (st : extraction) (t : log_type) (m : message)
  : extraction :=
  {| contributors := contributors st;
     bots := bots st;
     logged := logged st ++ [Log t m] |}.

(** [d[k] = v] on an insertion-ordered dictionary. *)
Fixpoint dict_set {A} (k : str) (v : A) (d : list (str * A))
  : list (str * A) :=
  match d with
  | [] => [(k, v)]
  | (k', v') :: rest =>
      if decide (k = k') then (k', v) :: rest
      else (k', v') :: dict_set k v rest
  end.

Section Extraction.
Context `{!Lower}.

(** [is_bot(commit)] *)
Definition is_bot (commit : json) : result bool :=
  author ← get commit "author" JNull;
  outer ← (if truthy author then
             commit_author_type ← get author "type" (JStr "");
             if eq_str commit_author_type "Bot" then Ok true
             else
               login ← get author "login" (JStr "");
               username ← str_lower login;
               Ok (endswith username "[bot]")
           else Ok false);
  if (outer : bool) then Ok true
  else
    commit_author ← inner_author commit;
    e ← get commit_author "email" (JStr "");
    email ← str_lower e;
    Ok (endswith email "[bot]").

(** The body of the loop over [commits]. *)
Definition process_commit (repo : str) (st : extraction) (commit : json)
  : result extraction :=
  author ← inner_author commit;
  if negb (truthy author) then
    Ok (log_extraction st INFO (SkippingCommit commit))
  else
    e ← get author "email" (JStr "N/A");
    email ← str_lower e;
    name ← get author "name" (JStr "N/A");
    bot ← is_bot commit;
    if (bot : bool) then
      if decide (email ∈ bots st) then Ok st
      else
        let st := log_extraction st INFO (IsBot name email repo) in
        Ok {| contributors := contributors st;
              bots := {[email]} ∪ bots st;
              logged := logged st |}
    else
      match assoc email (contributors st) with
      | Some _ => Ok st
      | None =>
          let st := log_extraction st INFO (AddingContributor name email repo) in
          date ← get author "date" (JStr "N/A");
          Ok {| contributors :=
                  dict_set email
                    {| name := name; email := email; last_commit := date |}
                    (contributors st);
                bots := bots st;
                logged := logged st |}
      end.

Fixpoint extraction_loop (repo : str) (st : extraction)
    (commits : list json) : result extraction :=
  match commits with
  | [] => Ok st
  | commit :: rest =>
      st' ← process_commit repo st commit;
      extraction_loop repo st' rest
  end.

Definition extraction_start : extraction :=
  {| contributors := []; bots := ∅; logged := [] |}.

(** [process_commits_and_contributors(commits, repo, debug)] *)
Definition process_commits_and_contributors (commits : list json)
    (repo : str) : result (list (str * contributor)) :=
  st ← extraction_loop repo extraction_start commits;
  Ok (contributors st).

End Extraction.

(** ** The commit walker *)

(** The loop body of [parse_link_header], over the comma-separated parts. *)
Fixpoint parse_link_parts (parts : list str) (links : gmap str str)
  : result (gmap str str) :=
  match parts with
  | [] => Ok links
  | part :: rest =>
      let section := split ";"%char part in
      s0 ← index section 0;
      let url := slice_1_m1 (strip s0) in
      s1 ← index section 1;
      r ← index (split "="%char (strip s1)) 1;
      let rel := strip_quotes r in
      parse_link_parts rest (<[rel := url]> links)
  end.

(** [parse_link_header(link_header)] *)
Definition parse_link_header (link_header : str) : result (gmap str str) :=
  parse_link_parts (split ","%char link_header) ∅.

(** What the walker reads of a response: the status code, the two headers
    it looks up ("Link" and "X-RateLimit-Reset"), and the value
    [response.json()] decodes; [None] when the body is not JSON, for which
    [response.json()] raises [requests.exceptions.JSONDecodeError], a
    [RequestException]. *)
Record response := {
  status_code : Z;
  link : option str;
  ratelimit_reset : option str;
  json_body : option json
}.

Definition response_json (r : response) : result json :=
  match json_body r with
  | Some v => Ok v
  | None => Raise RequestException
  end.

Inductive reply :=
| Raises (e : exn)
| Returns (r : response).

(** One turn of the loop as the outside world answers it: what
    [requests.get] does; the values of [int(time.time())] at the two
    places of the rate-limit branch that read the clock; the value of
    [datetime.now()], in seconds from the first instant of [datetime];
    and the longest sleep the system grants. *)
Record exchange := {
  answer : reply;
  clock_default : Z;
  clock_now : Z;
  clock_local : Z;
  sleep_limit : Z
}.

(** The local variables of [fetch_commits_for_repo] and its effects so far. *)
Record walker := {
  url : option str;
  all_commits : list json;
  retry_attempts : nat;
  trace : list event
}.

Definition emit (st : walker) (ev : event) : walker :=
  {| url := url st; all_commits := all_commits st;
     retry_attempts := retry_attempts st; trace := trace st ++ [ev] |}.

Definition log (st : walker) (t : log_type) (m : message) : walker :=
  emit st (Log t m).

Definition set_url (st : walker) (u : option str) : walker :=
  {| url := u; all_commits := all_commits st;
     retry_attempts := retry_attempts st; trace := trace st |}.

Definition set_retry_attempts (st : walker) (n : nat) : walker :=
  {| url := url st; all_commits := all_commits st;
     retry_attempts := n; trace := trace st |}.

Definition extend (st : walker) (items : list json) : walker :=
  {| url := url st; all_commits := all_commits st ++ items;
     retry_attempts := retry_attempts st; trace := trace st |}.

(** [response.raise_for_status()] raises for the codes 400 to 599. *)
Definition raise_for_status (code : Z) : result unit :=
  if ((400 <=? code) && (code <? 600))%Z then Raise HTTPError else Ok tt.

Inductive flow :=
| Normal (st : walker)
| Continue (st : walker)
| Break (st : walker)
| Raised (e : exn) (st : walker).

(** [time.sleep(secs)] in the loop: the sleep is recorded if it is granted,
    and the loop goes to its next turn. *)
Definition sleep_and_continue (st : walker) (x : exchange) (secs : Z) : flow :=
  match time_sleep (sleep_limit x) secs with
  | Raise e => Raised e st
  | Ok _ => Continue (emit st (Sleep secs))
  end.

(** The [try] block of the loop, fetching [u]. *)
Definition try_block (st : walker) (u : str) (x : exchange) : flow :=
  let st := log st INFO (FetchingCommits u) in
  let st := emit st (Get u) in
  match answer x with
  | Raises e => Raised e st
  | Returns response =>
      if (status_code response =? 404)%Z then
        Break (log st WARNING NotFound)
      else if (status_code response =? 403)%Z then
        match
          match ratelimit_reset response with
          | Some s => int_of_str s
          | None => Some (clock_default x)
          end
        with
        | None => Raised ValueError st
        | Some reset_time =>
            let wait_time := Z.max 0 (reset_time - clock_now x) in
            match datetime_add (clock_local x) wait_time with
            | Raise e => Raised e st
            | Ok expected_completion_time =>
                let st := log st WARNING (RateLimitExceeded wait_time) in
                sleep_and_continue st x (wait_time + 3)
            end
        end
      else
        match raise_for_status (status_code response) with
        | Raise e => Raised e st
        | Ok _ =>
            match commits ← response_json response; iterate commits with
            | Raise e => Raised e st
            | Ok commits =>
                let st := extend st commits in
                let st :=
                  log st INFO
                    (Fetched (length commits) (length (all_commits st))) in
                let st := set_retry_attempts st 0 in
                match link response with
                | Some h =>
                    match parse_link_header h with
                    | Raise e => Raised e st
                    | Ok links => Normal (set_url st (links !! lit "next"))
                    end
                | None => Normal (set_url st None)
                end
            end
        end
  end.

(** One turn of the loop: the [try] block and its two [except] clauses.
    What is raised inside a clause leaves the loop. *)
Definition iteration (max_retries : nat) (st : walker) (u : str)
    (x : exchange) : flow :=
  match try_block st u x with
  | Raised e st =>
      if is_Timeout e then
        let st := set_retry_attempts st (retry_attempts st + 1) in
        if (max_retries <? retry_attempts st)%nat then
          Break (log st WARNING MaxRetriesExceeded)
        else
          let backoff_time := (2 ^ Z.of_nat (retry_attempts st))%Z in
          let st := log st WARNING (TimedOut backoff_time) in
          sleep_and_continue st x backoff_time
      else if is_RequestException e then
        Break (log st WARNING (ErrorFetching e))
      else Raised e st
  | other => other
  end.

(** How a call of the walker stands after a finite script of exchanges:
    it has returned, an exception has left it, or it is about to issue
    another request. *)
Inductive walk :=
| Returned (st : walker)
| Uncaught (e : exn) (st : walker)
| Waiting (st : walker).

(** [while url:] *)
Definition loop_test (st : walker) : option str :=
  match url st with
  | Some u => match u with [] => None | _ => Some u end
  | None => None
  end.

Fixpoint while_url (max_retries : nat) (script : list exchange) (st : walker)
  : walk :=
  match loop_test st with
  | None => Returned st
  | Some u =>
      match script with
      | [] => Waiting st
      | x :: rest =>
          match iteration max_retries st u x with
          | Normal st' | Continue st' => while_url max_retries rest st'
          | Break st' => Returned st'
          | Raised e st' => Uncaught e st'
          end
      end
  end.

Definition walker_start (owner repo api_url : str) : walker :=
  {| url := Some (api_url ++ "/repos/" ++ owner ++ "/" ++ repo ++ "/commits");
     all_commits := [];
     retry_attempts := 0;
     trace := [] |}.

(** [fetch_commits_for_repo(owner, repo, since_date, token, api_url, debug,
    max_retries)]; [since_date] and [token] only travel to the server. *)
Definition fetch_commits_for_repo (owner repo api_url : str)
    (max_retries : nat) (script : list exchange) : walk :=
  while_url max_retries script (walker_start owner repo api_url).

Definition DEFAULT_MAX_RETRIES : nat := 5.

(** ** One repository, and the orchestrator *)

(** A line of the report. *)
Record row := {
  row_repo : str;
  row_email : str;
  row_name : json;
  row_last_commit : json
}.

(** A job of the thread pool: done, with the list it returned or the
    exception it raised, or still running (its walker waits for more). *)
Inductive job :=
| Done (r : result (list row))
| Running.

Definition results_of (owner repo_name : str)
    (contributors : list (str * contributor)) : list row :=
  (λ item, {| row_repo := owner ++ "/" ++ repo_name;
              row_email := email item.2;
              row_name := name item.2;
              row_last_commit := last_commit item.2 |}) <$> contributors.

(** [process_single_repository(repo, since_date, token, api_url, debug)],
    its walker being answered by [script]. *)
Definition process_single_repository `{!Lower} (repo api_url : str)
    (script : list exchange) : job :=
  match split "/"%char repo with
  | [owner; repo_name] =>
      match fetch_commits_for_repo owner repo_name api_url
              DEFAULT_MAX_RETRIES script with
      | Returned st =>
          Done (contributors ←
                  process_commits_and_contributors (all_commits st) repo;
                Ok (results_of owner repo_name contributors))
      | Uncaught e _ => Done (Raise e)
      | Waiting _ => Running
      end
  | _ => Done (Raise ValueError)
  end.

(** The repositories read from the input file. *)
Definition repositories_of (lines : list str) : list str :=
  filter (λ line, line ≠ []) (strip <$> lines).

(** What the collecting loop of [process_repositories] builds;
    [repo_contributor_map] keeps its keys in insertion order. *)
Record aggregate := {
  all_contributors : list row;
  repo_contributor_map : list (str * nat);
  run_log : list event
}.

Definition unique_emails (result : list row) : gset str :=
  list_to_set (row_email <$> result).

(** The body of the loop over [as_completed]: one finished future. *)
Definition collect (agg : aggregate) (finished : str * result (list row))
  : aggregate :=
  let repo := finished.1 in
  match finished.2 with
  | Ok result =>
      {| all_contributors := all_contributors agg ++ result;
         repo_contributor_map :=
           dict_set repo (size (unique_emails result))
             (repo_contributor_map agg);
         run_log := run_log agg |}
  | Raise e =>
      {| all_contributors := all_contributors agg;
         repo_contributor_map := repo_contributor_map agg;
         run_log := run_log agg ++ [Log ERROR (ErrorProcessing repo e);
                                    Log TRACEBACK (Traceback e)] |}
  end.

Definition aggregate_start : aggregate :=
  {| all_contributors := []; repo_contributor_map := []; run_log := [] |}.

(** What a run hands over: the rows written under the CSV header, the
    lines of the summary table in the order they are printed, and its
    total row. *)
Record output := {
  csv_rows : list row;
  summary : list (str * nat);
  total_unique_contributors : nat;
  output_log : list event
}.

(** [process_repositories], from the futures in their order of completion. *)
Definition process_repositories
    (completed : list (str * result (list row))) : output :=
  let agg := foldl collect aggregate_start completed in
  {| csv_rows := all_contributors agg;
     summary := repo_contributor_map agg;
     total_unique_contributors := size (unique_emails (all_contributors agg));
     output_log := run_log agg |}.

(** The futures of a run whose jobs are given, in their order of completion,
    with the script each walker meets; [None] when a job never finishes. *)
Fixpoint futures `{!Lower} (api_url : str) (jobs : list (str * list exchange))
  : option (list (str * result (list row))) :=
  match jobs with
  | [] => Some []
  | (repo, script) :: rest =>
      match process_single_repository repo api_url script with
      | Done r => cons (repo, r) <$> futures api_url rest
      | Running => None
      end
  end.

Definition run `{!Lower} (api_url : str) (jobs : list (str * list exchange))
  : option output :=
  process_repositories <$> futures api_url jobs.

(** ** Views used to state the properties *)

(** What the extraction loop makes of one commit: skipped for want of
    author metadata, set aside as a bot under its email, or a human
    contribution with the entry it would record. *)
Inductive kind :=
| NoAuthor
| BotCommit (email : str) (name : json)
| Human (entry : contributor).

Section ExtractionViews.
Context `{!Lower}.

Definition classify (commit : json) : result kind :=
  author ← inner_author commit;
  if negb (truthy author) then Ok NoAuthor
  else
    e ← get author "email" (JStr "N/A");
    email ← str_lower e;
    name ← get author "name" (JStr "N/A");
    bot ← is_bot commit;
    if (bot : bool) then Ok (BotCommit email name)
    else
      date ← get author "date" (JStr "N/A");
      Ok (Human {| name := name; email := email; last_commit := date |}).

(** The entry a commit records under the key [e], if it is a human
    contribution with that key. *)
Definition human_entry (e : str) (commit : json) : option contributor :=
  match classify commit with
  | Ok (Human entry) => if decide (email entry = e) then Some entry else None
  | _ => None
  end.

(** The entry of the first human contribution with key [e] in a sequence. *)
Definition first_human_entry (e : str) (commits : list json)
  : option contributor :=
  head (omap (human_entry e) commits).

(** Every entry of a contributor dictionary is filed under its own email,
    and that key is in lower case. *)
Definition keyed_by_email (d : list (str * contributor)) : Prop :=
  Forall (λ kv, email kv.2 = kv.1 ∧ lower kv.1 = kv.1) d.

(** The loop has nothing left to record for a commit: it has no author
    metadata, or its email is already in the dictionary it belongs to. *)
Definition absorbed (st : extraction) (commit : json) : Prop :=
  match classify commit with
  | Ok NoAuthor => True
  | Ok (BotCommit e _) => e ∈ bots st
  | Ok (Human entry) => is_Some (assoc (email entry) (contributors st))
  | Raise _ => False
  end.

End ExtractionViews.

(** What the loop body does to its state for a commit of a given kind. *)
Definition record_kind (repo : str) (st : extraction) (commit : json)
    (k : kind) : extraction :=
  match k with
  | NoAuthor => log_extraction st INFO (SkippingCommit commit)
  | BotCommit e n =>
      if decide (e ∈ bots st) then st
      else {| contributors := contributors st;
              bots := {[e]} ∪ bots st;
              logged := logged st ++ [Log INFO (IsBot n e repo)] |}
  | Human entry =>
      match assoc (email entry) (contributors st) with
      | Some _ => st
      | None =>
          {| contributors := dict_set (email entry) entry (contributors st);
             bots := bots st;
             logged := logged st ++
                       [Log INFO (AddingContributor (name entry) (email entry) repo)] |}
      end
  end.

(** The two dictionaries of an extraction, without the log. *)
Definition dicts (r : result extraction)
  : result (list (str * contributor) * gset str) :=
  st ← r; Ok (contributors st, bots st).

(** A commit record whose inner author metadata is absent (no "commit"
    key, or no "author" key under it) or empty. *)
Definition lacks_author_metadata (commit : json) : bool :=
  match commit with
  | JObj kvs =>
      match assoc "commit" kvs with
      | None => true
      | Some (JObj inner) =>
          match assoc "author" inner with
          | None => true
          | Some author => negb (truthy author)
          end
      | Some _ => false
      end
  | _ => false
  end.

(** The URLs fetched and the waits slept, in the order of a trace. *)
Definition fetched (tr : list event) : list str :=
  omap (λ ev, match ev with Get u => Some u | _ => None end) tr.

Definition sleeps (tr : list event) : list Z :=
  omap (λ ev, match ev with Sleep d => Some d | _ => None end) tr.

(** The records a page adds to [all_commits]: those of a response that is
    neither 404 nor 403 nor an HTTP error and whose body can be iterated. *)
Definition page_of (x : exchange) : list json :=
  match answer x with
  | Returns r =>
      if ((status_code r =? 404) || (status_code r =? 403) ||
          ((400 <=? status_code r) && (status_code r <? 600)))%Z then []
      else match json_body r with
           | Some v => match iterate v with Ok items => items | Raise _ => [] end
           | None => []
           end
  | Raises _ => []
  end.

(** A Link header made of comma-separated segments that each have a
    second ";"-section holding an "=". *)
Definition well_formed_link (h : str) : bool :=
  forallb (λ part,
             match split ";"%char part with
             | _ :: s1 :: _ =>
                 match split "="%char (strip s1) with
                 | _ :: _ :: _ => true
                 | _ => false
                 end
             | _ => false
             end) (split ","%char h).

(** The system grants a sleep of [secs] seconds. *)
Definition grants (x : exchange) (secs : Z) : bool :=
  match time_sleep (sleep_limit x) secs with
  | Ok _ => true
  | Raise _ => false
  end.

(** The completion time of a wait, which the walker computes for its log,
    is within the range of [datetime]. *)
Definition has_completion_time (x : exchange) (wait_time : Z) : bool :=
  match datetime_add (clock_local x) wait_time with
  | Ok _ => true
  | Raise _ => false
  end.

(** The wait a 403 asks for, when its reset header reads as an integer or
    is absent. *)
Definition wait_of (x : exchange) (r : response) : option Z :=
  reset_time ← match ratelimit_reset r with
               | Some s => int_of_str s
               | None => Some (clock_default x)
               end;
  Some (Z.max 0 (reset_time - clock_now x)).

(** An exchange that keeps to the contract the walker relies on:
    [requests.get] raises nothing but its own exceptions; after a timeout
    the system grants the longest backoff the retry limit allows; a 403
    carries no reset header or one that reads as an integer, the wait it
    asks for ends within the range of [datetime] and is granted;
    and a successful response carries a JSON array (or no JSON at all) and,
    if any, a well-formed Link header. *)
Definition orderly (max_retries : nat) (x : exchange) : bool :=
  match answer x with
  | Raises e =>
      is_RequestException e &&
      (negb (is_Timeout e) || grants x (2 ^ Z.of_nat max_retries))
  | Returns r =>
      if (status_code r =? 404)%Z then true
      else if (status_code r =? 403)%Z then
        match wait_of x r with
        | Some wait_time =>
            has_completion_time x wait_time && grants x (wait_time + 3)
        | None => false
        end
      else if ((400 <=? status_code r) && (status_code r <? 600))%Z then true
      else match json_body r with
           | None => true
           | Some (JArr _) =>
               match link r with
               | Some h => well_formed_link h
               | None => true
               end
           | Some _ => false
           end
  end.

(** An exchange that ends the walk whatever came before: a 404, another
    HTTP error status, or a failure of the transport other than a timeout. *)
Definition terminal (x : exchange) : bool :=
  match answer x with
  | Raises e => is_RequestException e && negb (is_Timeout e)
  | Returns r =>
      (status_code r =? 404)%Z ||
      (negb (status_code r =? 403)%Z &&
       (400 <=? status_code r)%Z && (status_code r <? 600)%Z)
  end.

(** The timeouts met since the last successful fetch, counting on from
    [n], along a script that the walker got through: a timeout adds one, a
    403 leaves the count, a fetched page clears it. *)
Fixpoint consecutive_timeouts (n : nat) (script : list exchange) : nat :=
  match script with
  | [] => n
  | x :: rest =>
      consecutive_timeouts
        (match answer x with
         | Raises e => if is_Timeout e then S n else n
         | Returns r => if (status_code r =? 403)%Z then n else 0
         end) rest
  end.

(** A successful page: its records, and the cursor the walker reads from
    its Link header. *)
Definition is_page (x : exchange) (items : list json) (next : option str)
  : Prop :=
  ∃ r, answer x = Returns r ∧
       status_code r ≠ 404%Z ∧ status_code r ≠ 403%Z ∧
       raise_for_status (status_code r) = Ok tt ∧
       json_body r = Some (JArr items) ∧
       match link r with
       | None => next = None
       | Some h => ∃ links, parse_link_header h = Ok links ∧
                            next = links !! lit "next"
       end.

(** [pages script records]: the script is a run of successful pages, each
    but the last naming a next page, and [records] are their records. *)
Fixpoint pages (script : list exchange) (records : list (list json)) : Prop :=
  match script, records with
  | x :: rest, items :: more =>
      ∃ next, is_page x items next ∧
              match rest with
              | [] => more = [] ∧ (next = None ∨ next = Some [])
              | _ :: _ => (∃ u, next = Some u ∧ u ≠ []) ∧ pages rest more
              end
  | _, _ => False
  end.

(** The results of the futures that returned one, in order of completion. *)
Definition succeeded (completed : list (str * result (list row)))
  : list (list row) :=
  omap (λ finished, match finished.2 with
                    | Ok result => Some result
                    | Raise _ => None
                    end) completed.

(** The lines of the summary table a run prints for its futures: one for
    each that returned, with the number of distinct emails of its rows. *)
Definition summary_lines (completed : list (str * result (list row)))
  : list (str * nat) :=
  omap (λ finished, match finished.2 with
                    | Ok result =>
                        Some (finished.1, size (unique_emails result))
                    | Raise _ => None
                    end) completed.

(** The lines of the log a run writes for its futures: two for each that
    raised. *)
Definition failure_lines (completed : list (str * result (list row)))
  : list event :=
  completed ≫= λ finished,
    match finished.2 with
    | Ok _ => []
    | Raise e => [Log ERROR (ErrorProcessing finished.1 e);
                  Log TRACEBACK (Traceback e)]
    end.

(** The number of occurrences of a character. *)
Fixpoint count_char (c : char) (s : str) : nat :=
  match s with
  | [] => 0
  | c' :: s' => (if (c' =? c)%N then 1 else 0) + count_char c s'
  end.

Definition quote : char := 34%N.

(** One segment of a Link header as the server writes it, for a URL and a
    relation: the URL in angle brackets, then a parameter holding the
    relation between double quotes. *)
Definition render_link (param : str) (lk : str * str) : str :=
  "<" ++ lk.1 ++ ">; " ++ param ++ "=" ++ quote :: lk.2 ++ [quote].

(** A Link header: the segments separated by a comma and a space. *)
Fixpoint render_links (param : str) (lks : list (str * str)) : str :=
  match lks with
  | [] => []
  | [lk] => render_link param lk
  | lk :: rest => render_link param lk ++ ", " ++ render_links param rest
  end.

(** What a URL and a relation must avoid for the header to be read back:
    the separators the parser splits on, and the quote it strips. *)
Definition plain_link (lk : str * str) : Prop :=
  count_char ","%char lk.1 = 0 ∧ count_char ";"%char lk.1 = 0 ∧
  count_char ","%char lk.2 = 0 ∧ count_char ";"%char lk.2 = 0 ∧
  count_char "="%char lk.2 = 0 ∧ count_char quote lk.2 = 0.

Definition plain_param (param : str) : Prop :=
  count_char ","%char param = 0 ∧ count_char ";"%char param = 0 ∧
  count_char "="%char param = 0.

(** The white space that precedes a segment of such a header: none, or a
    space. *)
Definition lead (ws : str) : Prop := ws = [] ∨ ws = [chr " "].

(** The emails of the contributors and of the bots announced in a log. *)
Definition announced_contributors (tr : list event) : list str :=
  omap (λ ev, match ev with
              | Log INFO (AddingContributor _ e _) => Some e
              | _ => None
              end) tr.

Definition announced_bots (tr : list event) : list str :=
  omap (λ ev, match ev with
              | Log INFO (IsBot _ e _) => Some e
              | _ => None
              end) tr.

(** The next page a response names, as the walker reads it. *)
Definition names_next (x : exchange) (u : str) : Prop :=
  ∃ r h links, answer x = Returns r ∧ link r = Some h ∧
               parse_link_header h = Ok links ∧ links !! lit "next" = Some u.

(** A value in which every string is ASCII text. *)
Fixpoint ascii_json (v : json) : bool :=
  match v with
  | JStr s => forallb (λ c, c <? 128)%N s
  | JArr xs => forallb ascii_json xs
  | JObj kvs => forallb (λ kv, ascii_json kv.2) kvs
  | _ => true
  end.

(** The width of the repository column of the console summary:
    [min(max(DEFAULT_WIDTH, max_repo_length), MAX_WIDTH)], where the
    longest name defaults to [DEFAULT_WIDTH] when there is no repository. *)
Definition DEFAULT_WIDTH : nat := 40.
Definition MAX_WIDTH : nat := 80.

Definition max_repo_length (repos : list str) : nat :=
  match repos with
  | [] => DEFAULT_WIDTH
  | _ => foldr Nat.max 0 (length <$> repos)
  end.

Definition repo_column_width (repos : list str) : nat :=
  Nat.min (Nat.max DEFAULT_WIDTH (max_repo_length repos)) MAX_WIDTH.

(** ** Sample data *)

(** The examples are ASCII text, on which every lowering is that of the
    letters A-Z. *)
#[local] Existing Instance ascii_only.

(** A JSON object written with string literals for its keys. *)
Definition obj (kvs : list (string * json)) : json :=
  JObj ((λ kv, (lit kv.1, kv.2)) <$> kvs).

Definition commit_record (outer : json) (author : list (string * json))
  : json :=
  obj [("sha", JStr "0c1d"); ("author", outer);
       ("commit", obj [("author", obj author); ("message", JStr "m")])].

Definition user (login : string) : json :=
  obj [("login", JStr login); ("type", JStr "User")].

(** A commit of a bot account, and a later one by a user account that
    carries the same email. *)
Definition bot_commit : json :=
  commit_record
    (obj [("login", JStr "deploy-helper"); ("type", JStr "Bot")])
    [("name", JStr "Deploy Helper"); ("email", JStr "Ops@Example.org");
     ("date", JStr "2024-05-02T10:00:00Z")].

Definition human_commit : json :=
  commit_record (user "ann")
    [("name", JStr "Ann"); ("email", JStr "ops@example.org");
     ("date", JStr "2024-05-01T09:00:00Z")].

Definition older_commit : json :=
  commit_record (user "ann")
    [("name", JStr "Ann B."); ("email", JStr "OPS@example.org");
     ("date", JStr "2024-04-01T09:00:00Z")].

(** Two commits of one author whose email has a capital outside ASCII,
    JOSE@X.ORG with an acute accent on the E (U+00C9), in the first and its lower case in the second. *)
Definition jose_commit : json :=
  commit_record (user "jose")
    [("name", JStr "Jose"); ("email", JStr (lit "JOS" ++ 201%N :: lit "@X.ORG"));
     ("date", JStr "2024-05-01T09:00:00Z")].

Definition jose_older_commit : json :=
  commit_record (user "jose")
    [("name", JStr "J."); ("email", JStr (lit "jos" ++ 233%N :: lit "@x.org"));
     ("date", JStr "2024-04-01T09:00:00Z")].

(** Commits without inner author metadata: without the "author" entry, and
    with a "commit" entry that is null. *)
Definition bare_commit : json :=
  obj [("sha", JStr "77aa"); ("commit", obj [("message", JStr "m")])].

Definition null_commit : json :=
  obj [("sha", JStr "77ab"); ("commit", JNull)].

(** Commits whose author metadata has no email. *)
Definition anonymous_commit (who date : string) : json :=
  commit_record JNull [("name", JStr who); ("date", JStr date)].

(** A bot commit whose author metadata has no email, and a commit whose
    email is the text of the placeholder. *)
Definition anonymous_bot_commit : json :=
  commit_record
    (obj [("login", JStr "deploy-helper"); ("type", JStr "Bot")])
    [("name", JStr "Deploy Helper"); ("date", JStr "2024-05-02T10:00:00Z")].

Definition placeholder_commit : json :=
  commit_record (user "zed")
    [("name", JStr "Zed"); ("email", JStr "N/A");
     ("date", JStr "2024-05-03T10:00:00Z")].

(** An answer received on 2 May 2024 at 08:53:20 UTC, which is 10:53:20
    local time, on a system that grants sleeps of up to 9222372036
    seconds. *)
Definition received (a : reply) : exchange :=
  {| answer := a;
     clock_default := 1714640000; clock_now := 1714640000;
     clock_local := 63850244000; sleep_limit := 9222372036 |}.

Definition page (body : list json) (link_header : option str) : exchange :=
  received (Returns {| status_code := 200; link := link_header;
                       ratelimit_reset := None;
                       json_body := Some (JArr body) |}).

Definition timed_out : exchange := received (Raises Timeout).


Definition status (code : Z) (reset : option str) : exchange :=
  received (Returns {| status_code := code; link := None;
                       ratelimit_reset := reset; json_body := None |}).

(** A successful response with a given decoded body and no Link header. *)
Definition body_only (v : json) : exchange :=
  received (Returns {| status_code := 200; link := None;
                       ratelimit_reset := None; json_body := Some v |}).

Definition at_listing : walker := walker_start "o" "r" "https://api.github.com".

Definition ann_row (repo : str) : row :=
  {| row_repo := repo; row_email := "ops@example.org";
     row_name := JStr "Ann"; row_last_commit := JStr "2024-05-01T09:00:00Z" |}.

Definition bea_row (repo : str) : row :=
  {| row_repo := repo; row_email := "bea@example.org";
     row_name := JStr "Bea"; row_last_commit := JStr "2024-03-03T08:00:00Z" |}.

(** Three jobs in their order of completion; the second names no owner, so
    that unpacking [repo.split("/")] raises [ValueError]. *)
Definition three_jobs : list (str * list exchange) :=
  [(lit "o/r", [page [human_commit; older_commit] None]);
   (lit "orphan", []);
   (lit "o/s", [page [human_commit] None])].

(** * Properties *)

(** ** The result monad *)

Lemma bind_Ok {A B} (m : result A) (f : A → result B) (b : B) :
  m ≫= f = Ok b → ∃ a, m = Ok a ∧ f a = Ok b.
Proof. destruct m as [a|e]; simpl; [eauto | discriminate]. Qed.

(** ** Insertion-ordered dictionaries *)

Lemma assoc_dict_set_eq {A} (k : str) (v : A) d :
  assoc k (dict_set k v d) = Some v.
Proof.
  induction d as [|[k' v'] d IH]; simpl.
  - by rewrite decide_True.
  - destruct (decide (k = k')) as [E|E]; simpl.
    + by rewrite decide_True.
    + by rewrite decide_False.
Qed.

Lemma assoc_dict_set_ne {A} (k k' : str) (v : A) d :
  k ≠ k' → assoc k' (dict_set k v d) = assoc k' d.
Proof.
  intros Hne. induction d as [|[k0 v0] d IH]; simpl.
  - by rewrite decide_False.
  - destruct (decide (k = k0)) as [<-|E]; simpl.
    + by rewrite !(decide_False (P := k' = k)).
    + by rewrite IH.
Qed.

Lemma assoc_None_keys {A} (k : str) (d : list (str * A)) :
  assoc k d = None → k ∉ (d.*1).
Proof.
  induction d as [|[k' v] d IH]; simpl; intros H.
  - apply not_elem_of_nil.
  - destruct (decide (k = k')) as [|E]; [discriminate|].
    apply not_elem_of_cons. auto.
Qed.

Lemma dict_set_fresh {A} (k : str) (v : A) d :
  assoc k d = None → dict_set k v d = d ++ [(k, v)].
Proof.
  induction d as [|[k' v'] d IH]; simpl; intros H; [done|].
  destruct (decide (k = k')); [discriminate|]. by rewrite IH.
Qed.

(** ** Lowering *)

Lemma is_ascii_test (s : str) :
  forallb (λ c, c <? 128)%N s = true → is_ascii s.
Proof.
  intros H. apply Forall_forall. intros c Hc%list_elem_of_In.
  rewrite forallb_forall in H. by apply N.ltb_lt, H.
Qed.

Lemma lower_lit {L : Lower} (s : string) :
  forallb (λ c, c <? 128)%N (lit s) = true →
  lower (lit s) = ascii_lower (lit s).
Proof. intros H. by apply lower_ascii, is_ascii_test. Qed.

(** ** Extraction: the loop body in terms of [classify] *)

Lemma process_commit_classify {L : Lower} repo st commit :
  process_commit repo st commit =
  k ← classify commit; Ok (record_kind repo st commit k).
Proof.
  unfold process_commit, classify.
  destruct (inner_author commit) as [author|]; simpl; [|done].
  destruct (truthy author); simpl; [|done].
  destruct (get author "email" (JStr "N/A")) as [e|] eqn:He; simpl; [|done].
  destruct (str_lower e) as [em|]; simpl; [|done].
  destruct (get author "name" (JStr "N/A")) as [nm|]; simpl; [|done].
  destruct (is_bot commit) as [[]|]; simpl; [| |done].
  - by destruct (decide _).
  - destruct author; try discriminate. simpl.
    by destruct (assoc em (contributors st)).
Qed.

Lemma record_kind_lookup repo st commit k e :
  assoc e (contributors (record_kind repo st commit k)) =
  match assoc e (contributors st) with
  | Some x => Some x
  | None => match k with
            | Human entry => if decide (email entry = e) then Some entry else None
            | _ => None
            end
  end.
Proof.
  destruct k as [|e' n|entry]; simpl.
  - by destruct (assoc e (contributors st)).
  - destruct (decide _); simpl; by destruct (assoc e (contributors st)).
  - destruct (assoc (email entry) (contributors st)) eqn:Hin; simpl.
    + destruct (assoc e (contributors st)) eqn:He; [done|].
      destruct (decide (email entry = e)) as [E|E]; [|done]. congruence.
    + destruct (decide (email entry = e)) as [E|E].
      * subst e. by rewrite assoc_dict_set_eq, Hin.
      * rewrite assoc_dict_set_ne by done.
        by destruct (assoc e (contributors st)).
Qed.

Lemma first_human_entry_cons {L : Lower} e commit commits :
  first_human_entry e (commit :: commits) =
  match human_entry e commit with
  | Some x => Some x
  | None => first_human_entry e commits
  end.
Proof. unfold first_human_entry. simpl. by destruct (human_entry e commit). Qed.

Lemma extraction_loop_lookup {L : Lower} repo commits : ∀ st st' e,
  extraction_loop repo st commits = Ok st' →
  assoc e (contributors st') =
  match assoc e (contributors st) with
  | Some x => Some x
  | None => first_human_entry e commits
  end.
Proof.
  induction commits as [|c commits IH]; intros st st' e H; simpl in H.
  - injection H as <-. by destruct (assoc e (contributors st)).
  - apply bind_Ok in H as (st1 & Hc & Hrest).
    rewrite process_commit_classify in Hc.
    apply bind_Ok in Hc as (k & Hk & Hst1). injection Hst1 as <-.
    rewrite (IH _ _ e Hrest), record_kind_lookup, first_human_entry_cons.
    unfold human_entry. rewrite Hk.
    destruct (assoc e (contributors st)); [done|].
    destruct k as [| |entry]; try done.
Qed.

Lemma extraction_loop_total {L : Lower} repo commits : ∀ st,
  Forall (λ c, ∃ k, classify c = Ok k) commits →
  ∃ st', extraction_loop repo st commits = Ok st'.
Proof.
  induction commits as [|c commits IH]; intros st Hwf; simpl; [eauto|].
  inversion Hwf as [|? ? [k Hk] Hrest]; subst.
  rewrite process_commit_classify, Hk. simpl. by apply IH.
Qed.

Lemma extraction_loop_classified {L : Lower} repo commits : ∀ st st',
  extraction_loop repo st commits = Ok st' →
  Forall (λ c, ∃ k, classify c = Ok k) commits.
Proof.
  induction commits as [|c commits IH]; intros st st' H; simpl in H; [constructor|].
  apply bind_Ok in H as (st1 & Hc & Hrest).
  rewrite process_commit_classify in Hc.
  apply bind_Ok in Hc as (k & Hk & _).
  constructor; eauto.
Qed.

Lemma first_human_entry_Some {L : Lower} e commits :
  is_Some (first_human_entry e commits) ↔
  ∃ c entry, c ∈ commits ∧ classify c = Ok (Human entry) ∧ email entry = e.
Proof.
  induction commits as [|c commits IH].
  - split; [intros [? [=]] | intros (c & ? & Hc & _); by apply elem_of_nil in Hc].
  - rewrite first_human_entry_cons. unfold human_entry at 1.
    destruct (classify c) as [[| |entry]|] eqn:Hk;
      try (rewrite IH; split;
           [ intros (c' & x & ? & ? & ?); exists c', x; split; [by right|done]
           | intros (c' & x & [->|?]%elem_of_cons & Hx & ?); [congruence|eauto] ]).
    destruct (decide (email entry = e)) as [E|E].
    + split; [|eauto].
      intros _. exists c, entry. split; [by left|done].
    + rewrite IH. split.
      * intros (c' & x & ? & ? & ?). exists c', x. split; [by right|done].
      * intros (c' & x & [->|?]%elem_of_cons & Hx & ?); [congruence|eauto].
Qed.

Lemma first_human_entry_app {L : Lower} e pre post :
  (∀ c, c ∈ pre → human_entry e c = None) →
  first_human_entry e (pre ++ post) = first_human_entry e post.
Proof.
  induction pre as [|c pre IH]; intros H; [done|].
  simpl. rewrite first_human_entry_cons, H by (by left).
  apply IH. intros c' ?. apply H. by right.
Qed.

(** ** C1: bot emails and the contributor mapping *)

(** The email of [bot_commit] is classified as a bot email and stays in
    the bot set, yet the later [human_commit], which has no bot marker,
    enters the mapping under that very email. *)
Lemma bot_email_comes_back :
  classify bot_commit = Ok (BotCommit "ops@example.org" (JStr "Deploy Helper")) ∧
  is_bot human_commit = Ok false ∧
  (∃ st, extraction_loop "o/r" extraction_start [bot_commit; human_commit] = Ok st
         ∧ lit "ops@example.org" ∈ bots st) ∧
  process_commits_and_contributors [bot_commit; human_commit] "o/r" =
    Ok [(lit "ops@example.org",
         {| name := JStr "Ann"; email := "ops@example.org";
            last_commit := JStr "2024-05-01T09:00:00Z" |})].
Proof.
  split; [reflexivity|]. split; [reflexivity|]. split; [|reflexivity].
  eexists. split; [reflexivity|]. simpl.
  apply elem_of_union_l, elem_of_singleton. reflexivity.
Qed.

(** C1, as the code has it: an email is a key of the contributor mapping
    exactly when some commit of the sequence that has author metadata and
    is not classified as a bot carries it; commits classified as bots add
    no key, so an email that only bot commits carry is never a key. *)
Theorem contributor_keys_are_human_emails {L : Lower} repo commits m e :
  process_commits_and_contributors commits repo = Ok m →
  is_Some (assoc e m) ↔
  ∃ c entry, c ∈ commits ∧ classify c = Ok (Human entry) ∧ email entry = e.
Proof.
  intros H. unfold process_commits_and_contributors in H.
  apply bind_Ok in H as (st & Hloop & [= <-]).
  rewrite (extraction_loop_lookup _ _ _ _ e Hloop). simpl.
  apply first_human_entry_Some.
Qed.

Lemma contributor_keys_are_human_emails_witness :
  is_Some (assoc "ops@example.org"
             [(lit "ops@example.org",
               {| name := JStr "Ann"; email := "ops@example.org";
                  last_commit := JStr "2024-05-01T09:00:00Z" |})]) ↔
  ∃ c entry, c ∈ [bot_commit; human_commit] ∧
             classify c = Ok (Human entry) ∧
             email entry = lit "ops@example.org".
Proof.
  apply (contributor_keys_are_human_emails "o/r" [bot_commit; human_commit]).
  reflexivity.
Defined.

(** ** C2: the first human commit of an email fixes its entry *)

Lemma classify_human {L : Lower} c author e nm dt :
  inner_author c = Ok author → truthy author = true →
  is_bot c = Ok false →
  get author "email" (JStr "N/A") ≫= str_lower = Ok e →
  get author "name" (JStr "N/A") = Ok nm →
  get author "date" (JStr "N/A") = Ok dt →
  classify c = Ok (Human {| name := nm; email := e; last_commit := dt |}).
Proof.
  intros Ha Ht Hb He Hn Hd. unfold classify. rewrite Ha. simpl.
  rewrite Ht. simpl.
  apply bind_Ok in He as (v & -> & Hl). simpl. rewrite Hl. simpl.
  rewrite Hn. simpl. rewrite Hb. simpl. rewrite Hd. done.
Qed.

Lemma extraction_lookup {L : Lower} repo commits m e :
  process_commits_and_contributors commits repo = Ok m →
  assoc e m = first_human_entry e commits.
Proof.
  intros H. unfold process_commits_and_contributors in H.
  apply bind_Ok in H as (st & Hloop & [= <-]).
  by rewrite (extraction_loop_lookup _ _ _ _ e Hloop).
Qed.

Lemma first_human_recorded {L : Lower} repo pre c post m entry :
  process_commits_and_contributors (pre ++ c :: post) repo = Ok m →
  classify c = Ok (Human entry) →
  (∀ c', c' ∈ pre → human_entry (email entry) c' = None) →
  assoc (email entry) m = Some entry.
Proof.
  intros H Hk Hpre.
  rewrite (extraction_lookup _ _ _ _ H).
  rewrite first_human_entry_app, first_human_entry_cons by done.
  unfold human_entry. rewrite Hk. by rewrite decide_True.
Qed.

(** C2: when extraction returns a mapping, the entry under a lower-cased
    email is the one recorded from the first commit of the sequence that
    is not a bot commit and carries that email: its name and its author
    date.  Whatever follows that commit does not change the entry, and
    every key of the mapping is read off the sequence in this way.  The
    lowering is that of [str.lower], whatever its case mappings. *)
Theorem first_seen_wins {L : Lower} repo pre c post m author e nm dt :
  process_commits_and_contributors (pre ++ c :: post) repo = Ok m →
  inner_author c = Ok author → truthy author = true →
  is_bot c = Ok false →
  get author "email" (JStr "N/A") ≫= str_lower = Ok e →
  get author "name" (JStr "N/A") = Ok nm →
  get author "date" (JStr "N/A") = Ok dt →
  (∀ c', c' ∈ pre → human_entry e c' = None) →
  assoc e m = Some {| name := nm; email := e; last_commit := dt |} ∧
  ∀ e', assoc e' m = first_human_entry e' (pre ++ c :: post).
Proof.
  intros H Ha Ht Hb He Hn Hd Hpre.
  split; [|intros e'; by apply (extraction_lookup repo)].
  apply (first_human_recorded repo pre c post m
           {| name := nm; email := e; last_commit := dt |}); try done.
  by apply (classify_human _ author).
Qed.

Lemma first_seen_wins_witness :
  let key := lit "jos" ++ 233%N :: lit "@x.org" in
  let entry := {| name := JStr "Jose"; email := key;
                  last_commit := JStr "2024-05-01T09:00:00Z" |} in
  assoc key [(key, entry)] = Some entry ∧
  ∀ e', assoc e' [(key, entry)] =
        @first_human_entry latin1 e'
          ([bot_commit] ++ jose_commit :: [jose_older_commit]).
Proof.
  apply (first_seen_wins (L := latin1) "o/r" [bot_commit] jose_commit
           [jose_older_commit] _
           (obj [("name", JStr "Jose");
                 ("email", JStr (lit "JOS" ++ 201%N :: lit "@X.ORG"));
                 ("date", JStr "2024-05-01T09:00:00Z")]));
    try reflexivity.
  intros c' Hc'. apply list_elem_of_singleton in Hc'. subst c'. reflexivity.
Defined.

(** ** C9: commits without author metadata *)

Lemma lacks_author_metadata_inner commit :
  lacks_author_metadata commit = true →
  ∃ author, inner_author commit = Ok author ∧ truthy author = false.
Proof.
  unfold lacks_author_metadata, inner_author.
  destruct commit as [| | | | |kvs]; try discriminate. simpl.
  destruct (assoc _ kvs) as [inner|]; simpl.
  - destruct inner as [| | | | |ikvs]; try discriminate. simpl.
    destruct (assoc _ ikvs) as [a|]; simpl.
    + intros H. exists a. split; [done|]. by destruct (truthy a).
    + intros _. by exists (JObj []).
  - intros _. by exists (JObj []).
Qed.

Lemma process_commit_dicts {L : Lower} repo st1 st2 c :
  contributors st1 = contributors st2 → bots st1 = bots st2 →
  dicts (process_commit repo st1 c) = dicts (process_commit repo st2 c).
Proof.
  intros Hc Hb. rewrite !process_commit_classify.
  destruct (classify c) as [k|]; simpl; [|done].
  destruct k as [|e n|entry]; simpl.
  - by rewrite Hc, Hb.
  - rewrite Hb. destruct (decide _); simpl; by rewrite Hc, ?Hb.
  - rewrite Hc. destruct (assoc _ _); simpl; by rewrite ?Hc, Hb.
Qed.

Lemma extraction_loop_dicts {L : Lower} repo commits : ∀ st1 st2,
  contributors st1 = contributors st2 → bots st1 = bots st2 →
  dicts (extraction_loop repo st1 commits) =
  dicts (extraction_loop repo st2 commits).
Proof.
  induction commits as [|c commits IH]; intros st1 st2 Hc Hb; simpl.
  - by rewrite Hc, Hb.
  - pose proof (process_commit_dicts repo st1 st2 c Hc Hb) as H.
    destruct (process_commit repo st1 c) as [a|],
             (process_commit repo st2 c) as [b|]; simpl in *; try congruence.
    injection H as H1 H2. by apply IH.
Qed.

Lemma extraction_loop_app {L : Lower} repo pre post st :
  extraction_loop repo st (pre ++ post) =
  st' ← extraction_loop repo st pre; extraction_loop repo st' post.
Proof.
  revert st. induction pre as [|c pre IH]; intros st; simpl; [done|].
  destruct (process_commit repo st c) as [st1|]; simpl; [apply IH|done].
Qed.

(** A record whose "commit" entry is null has no inner author metadata,
    and is not skipped: reading the author of the null entry raises
    [AttributeError], which ends the extraction of the whole sequence. *)
Lemma null_commit_is_not_skipped :
  get null_commit "commit" (JObj []) = Ok JNull ∧
  process_commit "o/r" extraction_start null_commit = Raise AttributeError ∧
  process_commits_and_contributors [human_commit; null_commit] "o/r" =
    Raise AttributeError.
Proof. split; [reflexivity|]. split; reflexivity. Qed.

(** C9, as the code has it: a commit record is skipped without raising
    when its "commit" entry is missing, or is an object whose "author" entry
    is missing or empty.  For such a record the loop body logs the skip and
    leaves both the contributor mapping and the bot set as they were, and
    the loop goes on with the remaining commits, so that the two
    dictionaries end up as if the record had not been in the sequence. *)
Theorem commit_without_author_is_skipped {L : Lower} repo st commit pre post :
  lacks_author_metadata commit = true →
  process_commit repo st commit =
    Ok {| contributors := contributors st; bots := bots st;
          logged := logged st ++ [Log INFO (SkippingCommit commit)] |} ∧
  dicts (extraction_loop repo st (pre ++ commit :: post)) =
  dicts (extraction_loop repo st (pre ++ post)).
Proof.
  intros H. apply lacks_author_metadata_inner in H as (author & Ha & Ht).
  assert (Hstep : ∀ s, process_commit repo s commit =
                       Ok (log_extraction s INFO (SkippingCommit commit))).
  { intros s. unfold process_commit. rewrite Ha. simpl. by rewrite Ht. }
  split; [apply Hstep|].
  rewrite !extraction_loop_app.
  destruct (extraction_loop repo st pre) as [st1|]; simpl; [|done].
  rewrite Hstep. simpl. by apply extraction_loop_dicts.
Qed.

Lemma commit_without_author_is_skipped_witness :
  process_commit "o/r" extraction_start bare_commit =
    Ok {| contributors := []; bots := ∅;
          logged := [Log INFO (SkippingCommit bare_commit)] |} ∧
  dicts (extraction_loop "o/r" extraction_start
           ([bot_commit] ++ bare_commit :: [human_commit])) =
  dicts (extraction_loop "o/r" extraction_start
           ([bot_commit] ++ [human_commit])).
Proof.
  apply (commit_without_author_is_skipped "o/r" extraction_start bare_commit
           [bot_commit] [human_commit]).
  reflexivity.
Defined.

(** ** C10: commits whose author metadata has no email *)

Lemma record_kind_keys repo st commit k :
  NoDup (contributors st).*1 →
  NoDup (contributors (record_kind repo st commit k)).*1.
Proof.
  intros Hnd. destruct k as [|e n|entry]; simpl; [done| |].
  - by destruct (decide _).
  - destruct (assoc (email entry) (contributors st)) eqn:Hin; simpl; [done|].
    rewrite dict_set_fresh, fmap_app by done. simpl.
    apply NoDup_app. split; [done|]. split.
    + intros x Hx ->%list_elem_of_singleton.
      by apply assoc_None_keys in Hin.
    + apply NoDup_singleton.
Qed.

Lemma extraction_loop_keys {L : Lower} repo commits : ∀ st st',
  extraction_loop repo st commits = Ok st' →
  NoDup (contributors st).*1 → NoDup (contributors st').*1.
Proof.
  induction commits as [|c commits IH]; intros st st' H Hnd; simpl in H.
  - by injection H as <-.
  - apply bind_Ok in H as (st1 & Hc & Hrest).
    rewrite process_commit_classify in Hc.
    apply bind_Ok in Hc as (k & Hk & [= <-]).
    eapply IH; [exact Hrest|]. by apply record_kind_keys.
Qed.

(** The placeholder of a missing email, lowered. *)
Lemma lower_placeholder {L : Lower} : lower (lit "N/A") = lit "n/a".
Proof. by rewrite lower_lit. Qed.

(** The key under which a classified commit is filed, in either dictionary. *)
Lemma classify_without_email {L : Lower} c akvs k :
  inner_author c = Ok (JObj akvs) → akvs ≠ [] → assoc "email" akvs = None →
  classify c = Ok k →
  match k with
  | BotCommit e _ => e = lit "n/a"
  | Human entry =>
      entry = {| name := default (JStr "N/A") (assoc "name" akvs);
                 email := "n/a";
                 last_commit := default (JStr "N/A") (assoc "date" akvs) |}
  | NoAuthor => False
  end.
Proof.
  intros Ha Hne He. unfold classify. rewrite Ha. simpl.
  destruct akvs as [|kv akvs]; [done|].
  remember (kv :: akvs) as author eqn:Hau. simpl. rewrite He. simpl.
  rewrite lower_placeholder.
  destruct (is_bot c) as [[]|]; simpl; intros [= <-]; done.
Qed.

(** The first commit of a sequence that lacks an email is not always the
    one recorded under "n/a": when it is a bot commit, the entry is that of
    a later commit; and a commit whose email is the text "N/A" takes the
    key before any commit that lacks one. *)
Lemma placeholder_entry_of_another_commit :
  process_commits_and_contributors
    [anonymous_bot_commit; anonymous_commit "Carl" "2024-02-02T08:00:00Z"]
    "o/r" =
    Ok [(lit "n/a", {| name := JStr "Carl"; email := "n/a";
                       last_commit := JStr "2024-02-02T08:00:00Z" |})] ∧
  process_commits_and_contributors
    [placeholder_commit; anonymous_commit "Bea" "2024-03-03T08:00:00Z"]
    "o/r" =
    Ok [(lit "n/a", {| name := JStr "Zed"; email := "n/a";
                       last_commit := JStr "2024-05-03T10:00:00Z" |})].
Proof. split; reflexivity. Qed.

(** C10, as the code has it: a commit that has author metadata but no email
    field is filed under the key "n/a", whichever dictionary it goes to.
    In a sequence on which extraction returns a mapping, such a commit gives
    the one entry stored under that key, with its own name and author date,
    when it is not a bot commit and no earlier commit was filed as a
    contributor under "n/a"; every other commit without an email, whoever
    its author, falls on the same key and adds no further entry, the keys
    of the mapping being distinct. *)
Theorem missing_email_collapses {L : Lower} repo pre c post m akvs :
  process_commits_and_contributors (pre ++ c :: post) repo = Ok m →
  inner_author c = Ok (JObj akvs) → akvs ≠ [] → assoc "email" akvs = None →
  is_bot c = Ok false →
  (∀ c', c' ∈ pre → human_entry "n/a" c' = None) →
  assoc "n/a" m =
    Some {| name := default (JStr "N/A") (assoc "name" akvs);
            email := "n/a";
            last_commit := default (JStr "N/A") (assoc "date" akvs) |} ∧
  NoDup (m.*1) ∧
  ∀ c' akvs', c' ∈ pre ++ c :: post →
    inner_author c' = Ok (JObj akvs') → akvs' ≠ [] →
    assoc "email" akvs' = None →
    ∃ k, classify c' = Ok k ∧
         match k with
         | BotCommit e _ => e = lit "n/a"
         | Human entry => email entry = lit "n/a"
         | NoAuthor => False
         end.
Proof.
  intros H Ha Hne He Hb Hpre.
  assert (Ht : truthy (JObj akvs) = true) by (by destruct akvs).
  assert (Hentry : assoc "n/a" m =
            Some {| name := default (JStr "N/A") (assoc "name" akvs);
                    email := "n/a";
                    last_commit := default (JStr "N/A") (assoc "date" akvs) |}).
  { apply (first_human_recorded repo pre c post m
             {| name := default (JStr "N/A") (assoc "name" akvs);
                email := "n/a";
                last_commit := default (JStr "N/A") (assoc "date" akvs) |});
      try done.
    apply (classify_human c (JObj akvs)); try done.
    simpl. rewrite He. simpl. by rewrite lower_placeholder. }
  split; [exact Hentry|].
  unfold process_commits_and_contributors in H.
  apply bind_Ok in H as (st & Hloop & [= <-]).
  split.
  { eapply extraction_loop_keys; [exact Hloop|]. simpl. apply NoDup_nil_2. }
  intros c' akvs' Hin Ha' Hne' He'.
  pose proof (extraction_loop_classified _ _ _ _ Hloop) as Hall.
  rewrite Forall_forall in Hall. destruct (Hall c' Hin) as [k Hk].
  exists k. split; [done|].
  pose proof (classify_without_email c' akvs' k Ha' Hne' He' Hk) as Hkey.
  destruct k as [| |entry]; try done. by rewrite Hkey.
Qed.

Lemma missing_email_collapses_witness :
  let commits := [human_commit] ++ anonymous_commit "Bea" "2024-03-03T08:00:00Z"
                   :: [anonymous_commit "Carl" "2024-02-02T08:00:00Z"] in
  ∃ m, process_commits_and_contributors commits "o/r" = Ok m ∧
       length m = 2 ∧
       assoc "n/a" m =
         Some {| name := JStr "Bea"; email := "n/a";
                 last_commit := JStr "2024-03-03T08:00:00Z" |} ∧
       NoDup (m.*1).
Proof.
  eexists. split; [reflexivity|]. split; [reflexivity|].
  pose proof (missing_email_collapses "o/r" [human_commit]
                (anonymous_commit "Bea" "2024-03-03T08:00:00Z")
                [anonymous_commit "Carl" "2024-02-02T08:00:00Z"] _
                ((λ kv, (lit kv.1, kv.2)) <$>
                 [("name", JStr "Bea"); ("date", JStr "2024-03-03T08:00:00Z")])
                eq_refl eq_refl) as H.
  destruct H as (H1 & H2 & _); try done.
  intros c' Hc'. apply list_elem_of_singleton in Hc'. by subst c'.
Defined.

(** ** The walker: one turn of the loop *)

Lemma fetched_app tr tr' : fetched (tr ++ tr') = fetched tr ++ fetched tr'.
Proof. apply omap_app. Qed.

Lemma sleeps_app tr tr' : sleeps (tr ++ tr') = sleeps tr ++ sleeps tr'.
Proof. apply omap_app. Qed.

Ltac trace_simpl :=
  simpl; rewrite ?fetched_app, ?sleeps_app; simpl;
  rewrite ?app_nil_r, <- ?app_assoc; simpl.

Lemma index_raises {A} (xs : list A) i e : index xs i = Raise e → e = IndexError.
Proof. unfold index. destruct (xs !! i); congruence. Qed.

Lemma parse_link_parts_raises parts : ∀ links e,
  parse_link_parts parts links = Raise e → e = IndexError.
Proof.
  induction parts as [|part parts IH]; intros links e; simpl; [discriminate|].
  destruct (index (split _ part) 0) as [s0|e0] eqn:H0; simpl;
    [|intros [= <-]; by apply index_raises in H0].
  destruct (index (split _ part) 1) as [s1|e1] eqn:H1; simpl;
    [|intros [= <-]; by apply index_raises in H1].
  destruct (index (split _ (strip s1)) 1) as [r|e2] eqn:H2; simpl;
    [|intros [= <-]; by apply index_raises in H2].
  apply IH.
Qed.

Lemma parse_link_header_raises h e :
  parse_link_header h = Raise e → e = IndexError.
Proof. apply parse_link_parts_raises. Qed.

Lemma iterate_raises v e : iterate v = Raise e → e = TypeError.
Proof. destruct v; simpl; congruence. Qed.

Lemma datetime_add_raises now wait e :
  datetime_add now wait = Raise e → e = OverflowError.
Proof. unfold datetime_add. case_match; congruence. Qed.

Lemma time_sleep_raises limit secs e :
  time_sleep limit secs = Raise e →
  e = ValueError ∨ e = OverflowError ∨ e = OSError.
Proof. unfold time_sleep. repeat case_match; intros [= <-]; auto. Qed.


Lemma has_completion_time_spec x wait_time :
  has_completion_time x wait_time = true ↔
  datetime_add (clock_local x) wait_time = Ok (clock_local x + wait_time)%Z.
Proof.
  unfold has_completion_time, datetime_add.
  destruct (_ && _); split; congruence.
Qed.

Lemma grants_spec x secs :
  grants x secs = true ↔ time_sleep (sleep_limit x) secs = Ok tt.
Proof.
  unfold grants. destruct (time_sleep _ _) as [[]|]; split; congruence.
Qed.


(** The branches of a turn, in the order of the source. *)
Ltac rate_limit_branch :=
  destruct (datetime_add _ _) as [?t|?e] eqn:?; simpl;
  [ destruct (time_sleep _ _) as [[]|?e] eqn:?; simpl;
    [ | match goal with
        | H : time_sleep _ _ = Raise ?e |- _ =>
            destruct (time_sleep_raises _ _ _ H) as [->|[->| ->]]; simpl
        end ]
  | match goal with
    | H : datetime_add _ _ = Raise ?e |- _ =>
        pose proof (datetime_add_raises _ _ _ H); subst e; simpl
    end ].

Ltac turn x r :=
  unfold iteration, try_block, sleep_and_continue, response_json,
    raise_for_status, page_of, orderly, terminal, wait_of;
  let Hx := fresh "Hx" in
  destruct (answer x) as [?e|r] eqn:Hx; simpl;
  [ destruct (is_Timeout e) eqn:?; simpl;
    [ destruct (_ <? _)%nat eqn:?; simpl;
      [ | destruct (time_sleep _ _) as [[]|?e] eqn:?; simpl ]
    | destruct (is_RequestException e) eqn:?; simpl ]
  | destruct (status_code r =? 404)%Z eqn:?; simpl;
    [ | destruct (status_code r =? 403)%Z eqn:?; simpl;
        [ destruct (ratelimit_reset r) as [?s|] eqn:?; simpl;
          [ destruct (int_of_str s) eqn:?; simpl; [ rate_limit_branch | ]
          | rate_limit_branch ]
        | destruct ((400 <=? status_code r)%Z && (status_code r <? 600)%Z) eqn:?;
          simpl;
          [ | destruct (json_body r) as [?v|] eqn:?; simpl;
              [ destruct (iterate v) eqn:?; simpl;
                [ destruct (link r) as [?h|] eqn:?; simpl;
                  [ destruct (parse_link_header h) as [?links|?e] eqn:?; simpl;
                    [ | match goal with
                        | H : parse_link_header _ = Raise ?e |- _ =>
                            pose proof (parse_link_header_raises _ _ H);
                            subst e; simpl
                        end ]
                  | ]
                | match goal with
                  | H : iterate _ = Raise ?e |- _ =>
                      pose proof (iterate_raises _ _ H); subst e; simpl
                  end ]
              | ] ] ] ] ].

Ltac use_tests :=
  repeat match goal with
         | H : ?t = _ |- context [?t] => rewrite H
         end.

Lemma iteration_turn mr st u x :
  match iteration mr st u x with
  | Normal st' | Continue st' =>
      all_commits st' = all_commits st ++ page_of x ∧
      retry_attempts st' = consecutive_timeouts (retry_attempts st) [x] ∧
      fetched (trace st') = fetched (trace st) ++ [u]
  | Break st' =>
      all_commits st' = all_commits st ++ page_of x ∧
      fetched (trace st') = fetched (trace st) ++ [u]
  | Raised _ _ => True
  end.
Proof.
  turn x r; use_tests; trace_simpl; repeat split; try done; lia.
Qed.






(** ** The walker: the loop *)

Lemma while_url_stopped mr script st :
  loop_test st = None → while_url mr script st = Returned st.
Proof. intros H. destruct script; simpl; by rewrite H. Qed.

Lemma while_url_cons mr x script st u :
  loop_test st = Some u →
  while_url mr (x :: script) st =
  match iteration mr st u x with
  | Normal st' | Continue st' => while_url mr script st'
  | Break st' => Returned st'
  | Raised e st' => Uncaught e st'
  end.
Proof. intros H. simpl. by rewrite H. Qed.


Lemma while_url_app_returned mr script more : ∀ st st',
  while_url mr script st = Returned st' →
  while_url mr (script ++ more) st = Returned st'.
Proof.
  induction script as [|x script IH]; intros st st'; simpl.
  - destruct (loop_test st) eqn:Ht; [discriminate|].
    intros [= <-]. by apply while_url_stopped.
  - destruct (loop_test st) as [u|]; [|done].
    destruct (iteration mr st u x); try discriminate; try done; apply IH.
Qed.





(** ** C3: what leaves the walker *)




(** ** C4: waiting for the rate limit *)

Lemma rate_limit_turn mr st u x resp s r :
  answer x = Returns resp → status_code resp = 403%Z →
  ratelimit_reset resp = Some s → int_of_str s = Some r →
  has_completion_time x (Z.max 0 (r - clock_now x)) = true →
  grants x (Z.max 0 (r - clock_now x) + 3) = true →
  iteration mr st u x =
  Continue
    {| url := url st; all_commits := all_commits st;
       retry_attempts := retry_attempts st;
       trace := trace st ++
                [Log INFO (FetchingCommits u); Get u;
                 Log WARNING (RateLimitExceeded (Z.max 0 (r - clock_now x)));
                 Sleep (Z.max 0 (r - clock_now x) + 3)] |}.
Proof.
  intros Hx H403 Hs Hr Hd%has_completion_time_spec Hg%grants_spec.
  unfold iteration, try_block, sleep_and_continue.
  rewrite Hx, H403, Hs, Hr. simpl. rewrite Hd, Hg.
  unfold log, emit. simpl. by rewrite <- !app_assoc.
Qed.

(** Any number of such answers in a row leaves the walker waiting. *)
Lemma rate_limit_walk mr u x resp s r n : ∀ st,
  loop_test st = Some u →
  answer x = Returns resp → status_code resp = 403%Z →
  ratelimit_reset resp = Some s → int_of_str s = Some r →
  has_completion_time x (Z.max 0 (r - clock_now x)) = true →
  grants x (Z.max 0 (r - clock_now x) + 3) = true →
  ∃ st', while_url mr (replicate n x) st = Waiting st' ∧
         url st' = url st ∧
         retry_attempts st' = retry_attempts st ∧
         all_commits st' = all_commits st ∧
         sleeps (trace st') =
           sleeps (trace st) ++ replicate n (Z.max 0 (r - clock_now x) + 3)%Z ∧
         fetched (trace st') = fetched (trace st) ++ replicate n u.
Proof.
  intros st Ht Hx H403 Hs Hr Hd Hg.
  pose proof (λ st, rate_limit_turn mr st u x resp s r Hx H403 Hs Hr Hd Hg)
    as Hturn.
  revert st Ht. induction n as [|n IH]; intros st Ht.
  - exists st. simpl. rewrite Ht, ?app_nil_r. done.
  - simpl replicate. rewrite (while_url_cons _ _ _ _ u Ht), Hturn.
    edestruct IH as (st' & Hw & Hu & Hr' & Hc & Hsl & Hf);
      [|exists st'; split; [exact Hw|]].
    { unfold loop_test in *. simpl. exact Ht. }
    rewrite Hu, Hr', Hc, Hsl, Hf. trace_simpl. done.
Qed.

(** The walker does not get through every 403.  A reset header that gives
    the epoch in milliseconds asks for a wait of some fifty thousand years:
    the completion time computed for the log, [datetime.now() +
    timedelta(seconds=wait_time)], falls after the year 9999 and raises
    [OverflowError], before anything is logged or slept; the exception
    leaves the walker. *)
Lemma rate_limit_wait_overflows :
  ∃ st, fetch_commits_for_repo "o" "r" "https://api.github.com"
          DEFAULT_MAX_RETRIES [status 403 (Some (lit "1714640005000"))]
        = Uncaught OverflowError st ∧
        sleeps (trace st) = [] ∧
        errors_warnings (trace st) = false.
Proof. eexists. split; [reflexivity|]. split; reflexivity. Qed.

(** C4, as the code has it: on a 403 whose reset header reads as the epoch
    [r], received when the clock reads [t], if the wait max(0, r - t) added
    to the local time stays within the range of [datetime] and the system
    grants a sleep of max(0, r - t) + 3, the turn logs, sleeps that long
    and goes round the loop with the same URL, the same records and the
    same timeout count; and however many such answers follow one another,
    the walker sleeps that long after each, fetches the same URL again and
    never gives up. *)
Theorem rate_limit_wait mr st u x resp s r n :
  loop_test st = Some u →
  answer x = Returns resp → status_code resp = 403%Z →
  ratelimit_reset resp = Some s → int_of_str s = Some r →
  has_completion_time x (Z.max 0 (r - clock_now x)) = true →
  grants x (Z.max 0 (r - clock_now x) + 3) = true →
  let wait := (Z.max 0 (r - clock_now x) + 3)%Z in
  (∃ st', iteration mr st u x = Continue st' ∧
          url st' = url st ∧
          retry_attempts st' = retry_attempts st ∧
          all_commits st' = all_commits st ∧
          sleeps (trace st') = sleeps (trace st) ++ [wait] ∧
          fetched (trace st') = fetched (trace st) ++ [u]) ∧
  (∃ st', while_url mr (replicate n x) st = Waiting st' ∧
          url st' = url st ∧
          retry_attempts st' = retry_attempts st ∧
          all_commits st' = all_commits st ∧
          sleeps (trace st') = sleeps (trace st) ++ replicate n wait ∧
          fetched (trace st') = fetched (trace st) ++ replicate n u).
Proof.
  intros Ht Hx H403 Hs Hr Hd Hg wait.
  split; [|by apply (rate_limit_walk mr u x resp s r)].
  eexists. split; [by apply (rate_limit_turn mr st u x resp s r)|].
  trace_simpl. done.
Qed.

Lemma rate_limit_wait_witness :
  ∃ st', while_url DEFAULT_MAX_RETRIES
           (replicate 3 (status 403 (Some (lit "1714640005")))) at_listing
         = Waiting st' ∧
         retry_attempts st' = 0 ∧
         sleeps (trace st') = [8; 8; 8]%Z ∧
         fetched (trace st') =
           replicate 3 (lit "https://api.github.com/repos/o/r/commits").
Proof.
  destruct (rate_limit_wait DEFAULT_MAX_RETRIES at_listing
              "https://api.github.com/repos/o/r/commits"
              (status 403 (Some (lit "1714640005")))
              {| status_code := 403; link := None;
                 ratelimit_reset := Some (lit "1714640005");
                 json_body := None |}
              "1714640005" 1714640005 3)
    as (_ & st' & H & _ & Hr & _ & Hs & Hf); try reflexivity.
  exists st'. split; [exact H|]. split; [exact Hr|]. split; [exact Hs|exact Hf].
Defined.

(** ** C5: timeouts and their backoff *)







(** ** C6: following the cursor *)

Lemma page_turn mr st u x items next :
  is_page x items next →
  ∃ st', iteration mr st u x = Normal st' ∧
         url st' = next ∧
         all_commits st' = all_commits st ++ items ∧
         fetched (trace st') = fetched (trace st) ++ [u] ∧
         sleeps (trace st') = sleeps (trace st).
Proof.
  intros (r & Hx & H404 & H403 & Hst & Hbody & Hlink).
  unfold iteration, try_block, response_json.
  rewrite Hx, Hst, Hbody.
  destruct (Z.eqb_spec (status_code r) 404); [done|].
  destruct (Z.eqb_spec (status_code r) 403); [done|]. simpl.
  destruct (link r) as [h|].
  - destruct Hlink as (links & -> & ->). eexists. split; [done|].
    by trace_simpl.
  - subst next. eexists. split; [done|]. by trace_simpl.
Qed.

Lemma no_link_is_last_page x r items :
  answer x = Returns r →
  status_code r ≠ 404%Z → status_code r ≠ 403%Z →
  raise_for_status (status_code r) = Ok tt →
  json_body r = Some (JArr items) → link r = None →
  pages [x] [items].
Proof.
  intros. exists None. split; [|by eauto]. exists r. repeat split; try done.
  by rewrite H4.
Qed.

(** C6: a run of N successful pages, each but the last naming a next
    page, makes the walker stop by itself: it fetches exactly N times,
    whatever answers would have followed, and returns the records of the N
    pages in order.  A single page without a Link header is such a run. *)
Theorem pagination_terminates mr script : ∀ records extra st u,
  loop_test st = Some u → pages script records →
  ∃ st', while_url mr (script ++ extra) st = Returned st' ∧
         all_commits st' = all_commits st ++ concat records ∧
         length (fetched (trace st')) =
           length (fetched (trace st)) + length script ∧
         sleeps (trace st') = sleeps (trace st).
Proof.
  induction script as [|x script IH]; intros records extra st u Hu Hp;
    [done|].
  destruct records as [|items more]; [done|].
  destruct Hp as (next & Hpage & Hrest).
  destruct (page_turn mr st u x items next Hpage)
    as (st1 & Hturn & Hurl & Hc & Hf & Hs).
  simpl app. rewrite (while_url_cons _ _ _ _ u Hu), Hturn.
  destruct script as [|y script].
  - destruct Hrest as (-> & Hnext). exists st1.
    rewrite while_url_stopped.
    + rewrite Hc, Hf, Hs, length_app. simpl. rewrite app_nil_r.
      repeat split; try done; try lia.
    + unfold loop_test. rewrite Hurl. by destruct Hnext as [->| ->].
  - destruct Hrest as ((u' & -> & Hne) & Hmore).
    destruct (IH more extra st1 u') as (st' & Hw & Hc' & Hf' & Hs'); [|done|].
    { unfold loop_test. rewrite Hurl. by destruct u'. }
    exists st'. split; [exact Hw|].
    rewrite Hc', Hf', Hs', Hc, Hf, Hs, length_app, <- app_assoc. simpl.
    repeat split; try done; try lia.
Qed.

Lemma pagination_terminates_witness :
  ∃ st', while_url DEFAULT_MAX_RETRIES
           ([page [human_commit]
               (Some (lit "<https://api.github.com/x?page=2>; rel=next"));
             page [older_commit]
               (Some (lit "<https://api.github.com/x?page=1>; rel=prev"))]
            ++ [timed_out]) at_listing = Returned st' ∧
         all_commits st' = [] ++ concat [[human_commit]; [older_commit]] ∧
         length (fetched (trace st')) = 0 + 2 ∧
         sleeps (trace st') = [].
Proof.
  apply (pagination_terminates DEFAULT_MAX_RETRIES
           [page [human_commit]
              (Some (lit "<https://api.github.com/x?page=2>; rel=next"));
            page [older_commit]
              (Some (lit "<https://api.github.com/x?page=1>; rel=prev"))]
           [[human_commit]; [older_commit]] [timed_out] at_listing
           "https://api.github.com/repos/o/r/commits").
  - reflexivity.
  - eexists. split.
    + eexists. repeat split; try done. simpl.
      eexists. split; [vm_compute; reflexivity|reflexivity].
    + split; [by eexists|].
      exists None. split; [|by eauto].
      eexists. repeat split; try done. simpl.
      eexists. split; [vm_compute; reflexivity|]. vm_compute. reflexivity.
Defined.

(** ** The orchestrator *)

Lemma collect_rows completed : ∀ agg,
  all_contributors (foldl collect agg completed) =
  all_contributors agg ++ concat (succeeded completed).
Proof.
  induction completed as [|[repo [result|e]] completed IH]; intros agg; simpl.
  - by rewrite app_nil_r.
  - rewrite IH. simpl. by rewrite <- app_assoc.
  - by rewrite IH.
Qed.

Lemma collect_map_other completed repo : ∀ agg,
  (∀ result, (repo, Ok result) ∉ completed) →
  assoc repo (repo_contributor_map (foldl collect agg completed)) =
  assoc repo (repo_contributor_map agg).
Proof.
  induction completed as [|[repo' [result|e]] completed IH]; intros agg Hno;
    simpl; [done| |].
  - rewrite IH.
    + simpl. apply assoc_dict_set_ne. intros ->. apply (Hno result). by left.
    + intros r Hr. apply (Hno r). by right.
  - rewrite IH; [done|]. intros r Hr. apply (Hno r). by right.
Qed.

Lemma collect_map_count completed repo result : ∀ agg,
  NoDup (completed.*1) → (repo, Ok result) ∈ completed →
  assoc repo (repo_contributor_map (foldl collect agg completed)) =
  Some (size (unique_emails result)).
Proof.
  induction completed as [|[repo' r'] completed IH]; intros agg Hnd Hin.
  - by apply elem_of_nil in Hin.
  - simpl in Hnd. apply NoDup_cons in Hnd as [Hfresh Hnd].
    apply elem_of_cons in Hin as [[= <- <-]|Hin].
    + simpl. rewrite collect_map_other.
      * simpl. apply assoc_dict_set_eq.
      * intros r Hr. apply Hfresh.
        apply list_elem_of_fmap. by exists (repo, Ok r).
    + simpl. by apply IH.
Qed.

Lemma collect_log completed repo e : ∀ agg,
  (repo, Raise e) ∈ completed →
  Log ERROR (ErrorProcessing repo e) ∈ run_log (foldl collect agg completed).
Proof.
  assert (Hkeep : ∀ completed agg ev,
            ev ∈ run_log agg → ev ∈ run_log (foldl collect agg completed)).
  { clear. induction completed as [|[repo [result|e]] completed IH];
      intros agg ev Hev; simpl; [done| |]; apply IH; simpl; [done|].
    apply elem_of_app. by left. }
  induction completed as [|[repo' r'] completed IH]; intros agg Hin.
  - by apply elem_of_nil in Hin.
  - apply elem_of_cons in Hin as [[= <- <-]|Hin]; simpl; [|by apply IH].
    apply Hkeep. simpl. apply elem_of_app. right. by left.
Qed.

Lemma elem_of_concat {A} (x : A) (ls : list (list A)) :
  x ∈ concat ls ↔ ∃ l, x ∈ l ∧ l ∈ ls.
Proof.
  induction ls as [|l ls IH]; simpl.
  - split; [by intros ?%elem_of_nil | by intros (l & _ & ?%elem_of_nil)].
  - rewrite elem_of_app, IH. split.
    + intros [?|(l' & ? & ?)]; [exists l | exists l']; split; try done;
        [by left | by right].
    + intros (l' & ? & [->|?]%elem_of_cons); [by left | right; eauto].
Qed.

Lemma succeeded_elem completed repo result :
  (repo, Ok result) ∈ completed → result ∈ succeeded completed.
Proof.
  intros H. unfold succeeded. apply list_elem_of_omap.
  by exists (repo, Ok result).
Qed.

(** *** The rows of a job carry the name of its repository *)

Lemma split_nonempty sep s : split sep s ≠ [].
Proof.
  destruct s as [|c s]; simpl; [done|].
  destruct (c =? sep)%N; [done|]. by destruct (split sep s).
Qed.

Lemma split_one sep s : ∀ b, split sep s = [b] → s = b.
Proof.
  induction s as [|c s IH]; intros b; simpl.
  - by intros [= <-].
  - destruct (c =? sep)%N.
    + intros [= _ H]. by apply split_nonempty in H.
    + destruct (split sep s) as [|w ws] eqn:Hs;
        [by apply split_nonempty in Hs|].
      intros [= <- ->]. by rewrite (IH w).
Qed.

Lemma split_two sep s : ∀ a b,
  split sep s = [a; b] → s = a ++ sep :: b.
Proof.
  induction s as [|c s IH]; intros a b; simpl; [done|].
  destruct (N.eqb_spec c sep) as [->|_].
  - intros [= <- H]. simpl. f_equal. by apply split_one in H.
  - destruct (split sep s) as [|w ws] eqn:Hs; [done|].
    intros [= <- ->]. simpl. f_equal. by apply IH.
Qed.

Lemma process_single_repository_rows {L : Lower} repo api_url script result rw :
  process_single_repository repo api_url script = Done (Ok result) →
  rw ∈ result → row_repo rw = repo.
Proof.
  unfold process_single_repository.
  destruct (split _ repo) as [|owner [|repo_name [|]]] eqn:Hsplit; try done.
  apply split_two in Hsplit.
  destruct (fetch_commits_for_repo _ _ _ _ _) as [st| |]; try done.
  destruct (process_commits_and_contributors _ _) as [cs|]; simpl; [|done].
  intros [= <-] Hrw. unfold results_of in Hrw.
  apply list_elem_of_fmap in Hrw as (item & -> & _). simpl.
  symmetry. exact Hsplit.
Qed.

Lemma futures_names {L : Lower} api_url jobs : ∀ completed,
  futures api_url jobs = Some completed → completed.*1 = jobs.*1.
Proof.
  induction jobs as [|[repo script] jobs IH]; intros completed; simpl.
  - by intros [= <-].
  - destruct (process_single_repository repo api_url script) as [r|]; [|done].
    destruct (futures api_url jobs) as [rest|]; [|done]. simpl.
    intros [= <-]. rewrite !fmap_cons. simpl. f_equal. by apply IH.
Qed.

Lemma futures_rows {L : Lower} api_url jobs : ∀ completed repo result rw,
  futures api_url jobs = Some completed →
  (repo, Ok result) ∈ completed → rw ∈ result → row_repo rw = repo.
Proof.
  induction jobs as [|[repo' script] jobs IH]; intros completed repo result rw;
    simpl.
  - intros [= <-] Hin. by apply elem_of_nil in Hin.
  - destruct (process_single_repository repo' api_url script) as [r|] eqn:Hjob;
      [|done].
    destruct (futures api_url jobs) as [rest|]; [|done]. simpl.
    intros [= <-] [[= <- <-]|Hin]%elem_of_cons Hrw.
    + by apply (process_single_repository_rows _ _ _ _ _ Hjob).
    + by apply (IH rest repo result rw).
Qed.

Lemma futures_stalled {L : Lower} api_url jobs repo script :
  (repo, script) ∈ jobs →
  process_single_repository repo api_url script = Running →
  futures api_url jobs = None.
Proof.
  induction jobs as [|[repo' script'] jobs IH]; intros Hin Hrun.
  - by apply elem_of_nil in Hin.
  - simpl. apply elem_of_cons in Hin as [[= <- <-]|Hin].
    + by rewrite Hrun.
    + destruct (process_single_repository repo' api_url script'); [|done].
      by rewrite IH.
Qed.

(** ** C7: a repository that fails *)

(** The run does not always complete.  Of three jobs, the first returns
    and the second raises; the walker of the third is answered 403 each
    time it asks, and asks again after each wait.  However many answers it
    has had, the job is still running, and the run, which waits for all
    its jobs, has produced no output. *)
Lemma stalled_job_stalls_the_run :
  (∀ n, process_single_repository "o/s" "https://api.github.com"
          (replicate n (status 403 (Some (lit "1714640005")))) = Running) ∧
  (∀ n, run "https://api.github.com"
          [(lit "o/r", [page [human_commit] None]);
           (lit "orphan", []);
           (lit "o/s", replicate n (status 403 (Some (lit "1714640005"))))]
        = None).
Proof.
  assert (Hjob : ∀ n, process_single_repository "o/s" "https://api.github.com"
                        (replicate n (status 403 (Some (lit "1714640005"))))
                      = Running).
  { intros n. unfold process_single_repository.
    change (split "/"%char "o/s") with [lit "o"; lit "s"].
    unfold fetch_commits_for_repo.
    destruct (rate_limit_walk DEFAULT_MAX_RETRIES
                "https://api.github.com/repos/o/s/commits"
                (status 403 (Some (lit "1714640005")))
                {| status_code := 403; link := None;
                   ratelimit_reset := Some (lit "1714640005");
                   json_body := None |}
                "1714640005" 1714640005 n
                (walker_start "o" "s" "https://api.github.com"))
      as (st' & -> & _); reflexivity. }
  split; [exact Hjob|].
  intros n. unfold run.
  rewrite (futures_stalled _ _ "o/s"
             (replicate n (status 403 (Some (lit "1714640005"))))); [done| |].
  - apply list_elem_of_further, list_elem_of_further, list_elem_of_here.
  - apply Hjob.
Qed.

(** C7, as the code has it: in a run whose jobs all finish, on distinct
    repositories, a job that raised is logged as an error and leaves no
    trace in the results: its repository is absent from the summary and no
    row of the report names it, while the report holds the rows of every
    job that returned, in order of completion, and the summary holds a
    count for each. *)
Theorem failed_repository_is_left_out {L : Lower} api_url jobs completed repo e :
  NoDup (jobs.*1) →
  futures api_url jobs = Some completed →
  (repo, Raise e) ∈ completed →
  ∃ out, run api_url jobs = Some out ∧
         Log ERROR (ErrorProcessing repo e) ∈ output_log out ∧
         assoc repo (summary out) = None ∧
         (∀ rw, rw ∈ csv_rows out → row_repo rw ≠ repo) ∧
         csv_rows out = concat (succeeded completed) ∧
         ∀ repo' result, (repo', Ok result) ∈ completed →
           assoc repo' (summary out) = Some (size (unique_emails result)) ∧
           ∀ rw, rw ∈ result → rw ∈ csv_rows out.
Proof.
  intros Hnd Hfut Hfail.
  assert (Hnd' : NoDup (completed.*1)).
  { by rewrite (futures_names _ _ _ Hfut). }
  assert (Hno : ∀ result, (repo, Ok result) ∉ completed).
  { intros result Hin.
    apply list_elem_of_lookup in Hfail as [i Hi].
    apply list_elem_of_lookup in Hin as [j Hj].
    assert (i = j).
    { eapply NoDup_lookup; [exact Hnd'| |]; rewrite list_lookup_fmap.
      - by rewrite Hi.
      - by rewrite Hj. }
    subst j. congruence. }
  exists (process_repositories completed). unfold run. rewrite Hfut.
  split; [done|]. unfold process_repositories. simpl.
  split; [by apply collect_log|].
  split; [by rewrite collect_map_other|].
  rewrite collect_rows. simpl.
  split; [|split; [done|]].
  - intros rw Hrw Heq.
    apply elem_of_concat in Hrw as (result & Hrw & Hres).
    apply list_elem_of_omap in Hres as ([repo' r'] & Hin & Hok).
    simpl in Hok. destruct r' as [result'|]; [|done]. injection Hok as ->.
    pose proof (futures_rows _ _ _ _ _ _ Hfut Hin Hrw) as Hname.
    apply (Hno result). by rewrite <- Heq, Hname.
  - intros repo' result Hin.
    split; [by apply collect_map_count|].
    intros rw Hrw. apply elem_of_concat. exists result.
    split; [done|]. by apply (succeeded_elem _ repo').
Qed.

Lemma failed_repository_is_left_out_witness :
  ∃ out, run "https://api.github.com" three_jobs = Some out ∧
         Log ERROR (ErrorProcessing "orphan" ValueError) ∈ output_log out ∧
         assoc "orphan" (summary out) = None ∧
         csv_rows out = [ann_row "o/r"; ann_row "o/s"] ∧
         assoc "o/r" (summary out) = Some 1 ∧
         assoc "o/s" (summary out) = Some 1.
Proof.
  destruct (futures "https://api.github.com" three_jobs) as [completed|]
    eqn:Hfut; [|vm_compute in Hfut; discriminate].
  pose proof Hfut as Hv. vm_compute in Hv. injection Hv as Hv.
  destruct (failed_repository_is_left_out "https://api.github.com" three_jobs
              completed "orphan" ValueError)
    as (out & Hrun & Hlog & Hnone & _ & Hrows & Hsum).
  - apply (bool_decide_unpack _). vm_compute. exact I.
  - exact Hfut.
  - rewrite <- Hv. apply list_elem_of_further, list_elem_of_here.
  - exists out. split; [exact Hrun|]. split; [exact Hlog|].
    split; [exact Hnone|]. split; [by rewrite Hrows, <- Hv|].
    split.
    + apply (Hsum "o/r" [ann_row "o/r"]). rewrite <- Hv.
      apply list_elem_of_here.
    + apply (Hsum "o/s" [ann_row "o/s"]). rewrite <- Hv.
      apply list_elem_of_further, list_elem_of_further, list_elem_of_here.
Defined.

(** ** C8: counting per repository and overall *)







(** * Further properties *)

(** ** Strings *)

Lemma endswith_append (a b : str) : endswith (a ++ b) b = true.
Proof.
  unfold endswith. rewrite length_app.
  replace (length a + length b - length b) with (length a) by lia.
  rewrite drop_app_length, bool_decide_eq_true_2 by done.
  destruct (Nat.leb_spec (length b) (length a + length b)); [done|lia].
Qed.

Lemma ascii_lower_is_ascii (t s : str) :
  ascii_lower t = s → is_ascii s → is_ascii t.
Proof.
  intros <-. unfold is_ascii, ascii_lower. rewrite Forall_fmap. intros H.
  eapply Forall_impl; [exact H|]. intros c. unfold ascii_lower_char. simpl.
  destruct ((65 <=? c) && (c <=? 90))%N eqn:E; [|done].
  apply andb_prop in E as [_ E%N.leb_le]. intros _.
  apply N.le_lt_trans with 90%N; [done|reflexivity].
Qed.

(** A tail that lowers to "[bot]" as ASCII text is a bot suffix. *)
Lemma endswith_lower_bot {L : Lower} (p t : str) :
  ascii_lower t = lit "[bot]" → endswith (lower (p ++ t)) "[bot]" = true.
Proof.
  intros Ht.
  assert (Ha : is_ascii t).
  { apply (ascii_lower_is_ascii t "[bot]" Ht). by apply is_ascii_test. }
  destruct (lower_ascii_suffix p t Ha) as [p' ->].
  rewrite Ht. apply endswith_append.
Qed.

(** ** [is_bot] *)

(** X1: the "[bot]" suffix is recognised whatever the case of its
    letters, and whatever text, ASCII or not, precedes it.  A login that ends in it makes the commit a bot commit on the
    outer author alone, whatever the account type and whatever the inner
    metadata are; without an outer author, an email that ends in it does. *)
Theorem bot_suffix_any_case {L : Lower} kvs p t :
  ascii_lower t = lit "[bot]" →
  (∀ okvs, assoc "author" kvs = Some (JObj okvs) → okvs ≠ [] →
           assoc "login" okvs = Some (JStr (p ++ t)) →
           is_bot (JObj kvs) = Ok true) ∧
  (∀ ikvs akvs,
     assoc "author" kvs = None ∨ assoc "author" kvs = Some JNull →
     assoc "commit" kvs = Some (JObj ikvs) →
     assoc "author" ikvs = Some (JObj akvs) →
     assoc "email" akvs = Some (JStr (p ++ t)) →
     is_bot (JObj kvs) = Ok true).
Proof.
  intros Ht.
  pose proof (endswith_lower_bot p t Ht) as Hend.
  split.
  - intros okvs Ha Hne Hlogin. unfold is_bot. simpl. rewrite Ha. simpl.
    destruct okvs as [|kv okvs]; [done|].
    remember (kv :: okvs) as o. simpl.
    destruct (eq_str _ "Bot"); simpl; [done|].
    rewrite Hlogin. simpl. by rewrite Hend.
  - intros ikvs akvs Hnone Hc Hia He. unfold is_bot, inner_author. simpl.
    rewrite Hc. simpl. rewrite Hia. simpl. rewrite He. simpl. rewrite Hend.
    by destruct Hnone as [-> | ->].
Qed.

Lemma bot_suffix_any_case_witness :
  is_bot (commit_record
            (obj [("login", JStr "Renovate[BOT]"); ("type", JStr "User")])
            [("name", JStr "renovate"); ("email", JStr "r@example.org")])
  = Ok true.
Proof.
  destruct (bot_suffix_any_case
              [(lit "sha", JStr "0c1d");
               (lit "author",
                obj [("login", JStr "Renovate[BOT]"); ("type", JStr "User")]);
               (lit "commit",
                obj [("author",
                      obj [("name", JStr "renovate");
                           ("email", JStr "r@example.org")]);
                     ("message", JStr "m")])]
              "Renovate" "[BOT]" eq_refl) as [H _].
  apply (H [(lit "login", JStr "Renovate[BOT]"); (lit "type", JStr "User")]);
    [reflexivity|discriminate|reflexivity].
Defined.

(** ** Extraction: the bot set, the keys and the log *)

Lemma record_kind_bots repo st commit k e :
  e ∈ bots (record_kind repo st commit k) ↔
  e ∈ bots st ∨ ∃ n, k = BotCommit e n.
Proof.
  destruct k as [|e' n|entry]; simpl.
  - split; [by left|]. by intros [?|[? [=]]].
  - destruct (decide (e' ∈ bots st)) as [Hin|Hin]; simpl.
    + split; [by left|]. intros [?|[? [= ->]]]; done.
    + rewrite elem_of_union, elem_of_singleton. split.
      * intros [->|?]; [right; eauto|by left].
      * intros [?|[? [= ->]]]; [by right|by left].
  - destruct (assoc _ _); simpl; (split; [by left|]);
      by intros [?|[? [=]]].
Qed.

Lemma extraction_loop_bots {L : Lower} repo commits : ∀ st st' e,
  extraction_loop repo st commits = Ok st' →
  e ∈ bots st' ↔
  e ∈ bots st ∨ ∃ c n, c ∈ commits ∧ classify c = Ok (BotCommit e n).
Proof.
  induction commits as [|c commits IH]; intros st st' e H; simpl in H.
  - injection H as <-. split; [by left|].
    intros [?|(c & n & Hc & _)]; [done|by apply elem_of_nil in Hc].
  - apply bind_Ok in H as (st1 & Hc & Hrest).
    rewrite process_commit_classify in Hc.
    apply bind_Ok in Hc as (k & Hk & [= <-]).
    rewrite (IH _ _ e Hrest), record_kind_bots. split.
    + intros [[?|[n ->]]|(c' & n & Hin & Hc')]; [by left| |].
      * right. exists c, n. split; [by left|done].
      * right. exists c', n. split; [by right|done].
    + intros [?|(c' & n & [->|Hin]%elem_of_cons & Hc')].
      * by left; left.
      * left; right. exists n. congruence.
      * right. eauto.
Qed.

(** X2: after extraction the bot set holds exactly the lower-cased emails
    of the commits classified as bot commits. *)
Theorem bot_set_is_bot_emails {L : Lower} repo commits st e :
  extraction_loop repo extraction_start commits = Ok st →
  e ∈ bots st ↔ ∃ c n, c ∈ commits ∧ classify c = Ok (BotCommit e n).
Proof.
  intros H. rewrite (extraction_loop_bots _ _ _ _ e H). simpl. split.
  - intros [Hin|?]; [by apply not_elem_of_empty in Hin|done].
  - by right.
Qed.

Lemma bot_set_is_bot_emails_witness :
  ∃ st, extraction_loop "o/r" extraction_start [bot_commit; human_commit]
        = Ok st ∧
        (lit "ops@example.org" ∈ bots st ↔
         ∃ c n, c ∈ [bot_commit; human_commit] ∧
                classify c = Ok (BotCommit "ops@example.org" n)).
Proof.
  eexists. split; [reflexivity|].
  apply (bot_set_is_bot_emails "o/r" [bot_commit; human_commit]).
  reflexivity.
Defined.

Lemma classify_human_key {L : Lower} c entry :
  classify c = Ok (Human entry) → ∃ s, email entry = lower s.
Proof.
  unfold classify.
  destruct (inner_author c) as [author|]; simpl; [|done].
  destruct (truthy author); simpl; [|done].
  destruct (get author "email" (JStr "N/A")) as [e|]; simpl; [|done].
  destruct e as [| | |s| |]; simpl; try done.
  destruct (get author "name" (JStr "N/A")) as [nm|]; simpl; [|done].
  destruct (is_bot c) as [[]|]; simpl; try done.
  destruct (get author "date" (JStr "N/A")) as [dt|]; simpl; [|done].
  intros [= <-]. by exists s.
Qed.

Lemma record_kind_keyed {L : Lower} repo st commit k :
  classify commit = Ok k →
  keyed_by_email (contributors st) →
  keyed_by_email (contributors (record_kind repo st commit k)).
Proof.
  intros Hk Hinv. destruct k as [|e n|entry]; simpl; [done| |].
  - by destruct (decide _).
  - destruct (assoc (email entry) (contributors st)) eqn:Hin; simpl; [done|].
    rewrite dict_set_fresh by done. apply Forall_app. split; [done|].
    apply Forall_singleton. simpl. split; [done|].
    apply classify_human_key in Hk as [s ->]. apply lower_idemp.
Qed.

Lemma record_kind_length repo st commit k :
  length (contributors (record_kind repo st commit k)) ≤
  S (length (contributors st)).
Proof.
  destruct k as [|e n|entry]; simpl; [lia| |].
  - destruct (decide _); simpl; lia.
  - destruct (assoc (email entry) (contributors st)) eqn:Hin; simpl; [lia|].
    rewrite dict_set_fresh, length_app by done. simpl. lia.
Qed.

Lemma extraction_loop_keyed {L : Lower} repo commits : ∀ st st',
  extraction_loop repo st commits = Ok st' →
  keyed_by_email (contributors st) →
  keyed_by_email (contributors st') ∧
  length (contributors st') ≤ length (contributors st) + length commits.
Proof.
  induction commits as [|c commits IH]; intros st st' H Hinv; simpl in H.
  - injection H as <-. split; [done|lia].
  - apply bind_Ok in H as (st1 & Hc & Hrest).
    rewrite process_commit_classify in Hc.
    apply bind_Ok in Hc as (k & Hk & [= <-]).
    destruct (IH _ _ Hrest (record_kind_keyed repo st c k Hk Hinv))
      as [Hkeyed Hlen].
    split; [done|].
    pose proof (record_kind_length repo st c k). simpl. lia.
Qed.

(** X3: the mapping that extraction returns has distinct keys, files each
    entry under the email the entry holds, has only keys that are their
    own lower-casing, and has at most one entry per commit. *)
Theorem contributor_mapping_invariant {L : Lower} repo commits m :
  process_commits_and_contributors commits repo = Ok m →
  NoDup (m.*1) ∧ keyed_by_email m ∧ length m ≤ length commits.
Proof.
  intros H. unfold process_commits_and_contributors in H.
  apply bind_Ok in H as (st & Hloop & [= <-]).
  split.
  { eapply extraction_loop_keys; [exact Hloop|]. simpl. apply NoDup_nil_2. }
  apply (extraction_loop_keyed _ _ _ _ Hloop). by apply Forall_nil.
Qed.

Lemma contributor_mapping_invariant_witness :
  ∃ m, process_commits_and_contributors
         [bot_commit; human_commit; older_commit] "o/r" = Ok m ∧
       NoDup (m.*1) ∧ keyed_by_email m ∧ length m ≤ 3.
Proof.
  eexists. split; [reflexivity|].
  apply (contributor_mapping_invariant "o/r"
           [bot_commit; human_commit; older_commit]).
  reflexivity.
Defined.

Lemma announced_contributors_app tr tr' :
  announced_contributors (tr ++ tr') =
  announced_contributors tr ++ announced_contributors tr'.
Proof. apply omap_app. Qed.

Lemma announced_bots_app tr tr' :
  announced_bots (tr ++ tr') = announced_bots tr ++ announced_bots tr'.
Proof. apply omap_app. Qed.

Lemma errors_warnings_app tr tr' :
  errors_warnings (tr ++ tr') = errors_warnings tr || errors_warnings tr'.
Proof. apply existsb_app. Qed.

Lemma record_kind_log repo st commit k :
  announced_contributors (logged st) = (contributors st).*1 →
  NoDup (announced_bots (logged st)) →
  list_to_set (announced_bots (logged st)) = bots st →
  errors_warnings (logged st) = false →
  let st' := record_kind repo st commit k in
  announced_contributors (logged st') = (contributors st').*1 ∧
  NoDup (announced_bots (logged st')) ∧
  list_to_set (announced_bots (logged st')) = bots st' ∧
  errors_warnings (logged st') = false.
Proof.
  intros Hc Hnd Hb Hw. destruct k as [|e n|entry]; simpl.
  - rewrite announced_contributors_app, announced_bots_app,
      errors_warnings_app, Hw. simpl. by rewrite !app_nil_r.
  - destruct (decide (e ∈ bots st)) as [Hin|Hin]; simpl; [done|].
    rewrite announced_contributors_app, announced_bots_app,
      errors_warnings_app, Hw. simpl. rewrite app_nil_r.
    split; [done|]. split; [|split; [|done]].
    + apply NoDup_app. split; [done|]. split; [|apply NoDup_singleton].
      intros x Hx ->%list_elem_of_singleton. apply Hin. rewrite <- Hb.
      by apply elem_of_list_to_set.
    + rewrite list_to_set_app_L, Hb. simpl.
      rewrite union_empty_r_L. apply (comm_L _).
  - destruct (assoc (email entry) (contributors st)) eqn:Hin; simpl; [done|].
    rewrite announced_contributors_app, announced_bots_app,
      errors_warnings_app, Hw. simpl. rewrite app_nil_r.
    rewrite dict_set_fresh, fmap_app, Hc by done. done.
Qed.

Lemma extraction_loop_log {L : Lower} repo commits : ∀ st st',
  extraction_loop repo st commits = Ok st' →
  announced_contributors (logged st) = (contributors st).*1 →
  NoDup (announced_bots (logged st)) →
  list_to_set (announced_bots (logged st)) = bots st →
  errors_warnings (logged st) = false →
  announced_contributors (logged st') = (contributors st').*1 ∧
  NoDup (announced_bots (logged st')) ∧
  list_to_set (announced_bots (logged st')) = bots st' ∧
  errors_warnings (logged st') = false.
Proof.
  induction commits as [|c commits IH]; intros st st' H Hc Hnd Hb Hw;
    simpl in H.
  - by injection H as <-.
  - apply bind_Ok in H as (st1 & Hstep & Hrest).
    rewrite process_commit_classify in Hstep.
    apply bind_Ok in Hstep as (k & Hk & [= <-]).
    destruct (record_kind_log repo st c k Hc Hnd Hb Hw) as (? & ? & ? & ?).
    by apply (IH _ _ Hrest).
Qed.

(** X4: extraction announces each contributor once, when it adds it: the
    "Adding" lines of its log name the keys of the mapping in the order
    of the mapping.  Each bot email is announced once as well, and no line
    is a warning or an error, so that extraction never raises the
    errors-or-warnings flag. *)
Theorem extraction_log_matches {L : Lower} repo commits st :
  extraction_loop repo extraction_start commits = Ok st →
  announced_contributors (logged st) = (contributors st).*1 ∧
  NoDup (announced_bots (logged st)) ∧
  list_to_set (announced_bots (logged st)) = bots st ∧
  errors_warnings (logged st) = false.
Proof.
  intros H. apply (extraction_loop_log _ _ _ _ H); try done.
  apply NoDup_nil_2.
Qed.

Lemma extraction_log_matches_witness :
  ∃ st, extraction_loop "o/r" extraction_start
          [bot_commit; bot_commit; human_commit; bare_commit; older_commit]
        = Ok st ∧
        announced_contributors (logged st) = [lit "ops@example.org"] ∧
        announced_bots (logged st) = [lit "ops@example.org"] ∧
        errors_warnings (logged st) = false.
Proof.
  destruct (extraction_loop "o/r" extraction_start
              [bot_commit; bot_commit; human_commit; bare_commit; older_commit])
    as [st|e] eqn:Hl; [|vm_compute in Hl; discriminate].
  pose proof Hl as Hv. vm_compute in Hv. injection Hv as Hv.
  destruct (extraction_log_matches "o/r"
              [bot_commit; bot_commit; human_commit; bare_commit; older_commit]
              st Hl) as (Hc & _ & _ & Hw).
  exists st. split; [reflexivity|].
  split; [rewrite Hc, <- Hv; reflexivity|].
  split; [rewrite <- Hv; reflexivity|exact Hw].
Defined.

(** ** Extraction: commits seen again, and records it cannot read *)

Lemma record_kind_grows repo st commit k :
  (∀ e, is_Some (assoc e (contributors st)) →
        is_Some (assoc e (contributors (record_kind repo st commit k)))) ∧
  bots st ⊆ bots (record_kind repo st commit k).
Proof.
  split.
  - intros e [x Hx]. rewrite record_kind_lookup, Hx. eauto.
  - intros e He. apply record_kind_bots. by left.
Qed.

Lemma absorbed_grows {L : Lower} st st' c :
  (∀ e, is_Some (assoc e (contributors st)) →
        is_Some (assoc e (contributors st'))) →
  bots st ⊆ bots st' →
  absorbed st c → absorbed st' c.
Proof.
  unfold absorbed. intros Hc Hb.
  destruct (classify c) as [[|e n|entry]|]; try done; [apply Hb|apply Hc].
Qed.

Lemma record_kind_absorbs {L : Lower} repo st c k :
  classify c = Ok k → absorbed (record_kind repo st c k) c.
Proof.
  intros Hk. unfold absorbed. rewrite Hk. destruct k as [|e n|entry]; [done| |].
  - apply record_kind_bots. right. eauto.
  - rewrite record_kind_lookup.
    destruct (assoc (email entry) (contributors st)); [eauto|].
    rewrite decide_True by done. eauto.
Qed.

Lemma extraction_loop_absorbs {L : Lower} repo commits : ∀ st st',
  extraction_loop repo st commits = Ok st' →
  ((∀ e, is_Some (assoc e (contributors st)) →
         is_Some (assoc e (contributors st'))) ∧
   bots st ⊆ bots st') ∧
  ∀ c, c ∈ commits → absorbed st' c.
Proof.
  induction commits as [|c commits IH]; intros st st' H; simpl in H.
  - injection H as <-. split; [done|].
    intros c Hc. by apply elem_of_nil in Hc.
  - apply bind_Ok in H as (st1 & Hstep & Hrest).
    rewrite process_commit_classify in Hstep.
    apply bind_Ok in Hstep as (k & Hk & [= <-]).
    destruct (IH _ _ Hrest) as ([Hc Hb] & Habs).
    destruct (record_kind_grows repo st c k) as [Hc1 Hb1].
    split; [split|].
    + intros e He. by apply Hc, Hc1.
    + by etrans.
    + intros c' [->|Hin]%elem_of_cons; [|by apply Habs].
      apply (absorbed_grows (record_kind repo st c k)); try done.
      by apply record_kind_absorbs.
Qed.

Lemma process_commit_absorbed {L : Lower} repo st c :
  absorbed st c →
  ∃ st', process_commit repo st c = Ok st' ∧
         contributors st' = contributors st ∧ bots st' = bots st.
Proof.
  unfold absorbed. rewrite process_commit_classify.
  destruct (classify c) as [[|e n|entry]|]; simpl; try done.
  - eauto.
  - intros Hin. destruct (decide (e ∈ bots st)); [eauto|done].
  - intros [x ->]. eauto.
Qed.

Lemma extraction_loop_absorbed {L : Lower} repo commits : ∀ st,
  (∀ c, c ∈ commits → absorbed st c) →
  ∃ st', extraction_loop repo st commits = Ok st' ∧
         contributors st' = contributors st ∧ bots st' = bots st.
Proof.
  induction commits as [|c commits IH]; intros st Habs; simpl; [eauto|].
  destruct (process_commit_absorbed repo st c) as (st1 & -> & Hc & Hb).
  { apply Habs. by left. }
  simpl. destruct (IH st1) as (st' & -> & Hc' & Hb').
  - intros c' Hin. apply (absorbed_grows st).
    + by rewrite Hc.
    + by rewrite Hb.
    + apply Habs. by right.
  - exists st'. by rewrite Hc', Hb', Hc, Hb.
Qed.

(** X5: commits that come a second time change nothing.  If every commit
    of [again] already occurs in [commits], extraction over [commits]
    followed by [again] ends with the same contributor mapping and the
    same bot set as over [commits] alone, and raises when it does. *)
Theorem seen_commits_change_nothing {L : Lower} repo st commits again :
  (∀ c, c ∈ again → c ∈ commits) →
  dicts (extraction_loop repo st (commits ++ again)) =
  dicts (extraction_loop repo st commits).
Proof.
  intros Hsub. rewrite extraction_loop_app.
  destruct (extraction_loop repo st commits) as [st1|] eqn:Hloop; simpl;
    [|done].
  destruct (extraction_loop_absorbs _ _ _ _ Hloop) as (_ & Habs).
  destruct (extraction_loop_absorbed repo again st1) as (st2 & -> & Hc & Hb).
  { intros c Hc. by apply Habs, Hsub. }
  simpl. by rewrite Hc, Hb.
Qed.

Lemma seen_commits_change_nothing_witness :
  dicts (extraction_loop "o/r" extraction_start
           ([bot_commit; human_commit; older_commit] ++
            [older_commit; bot_commit])) =
  dicts (extraction_loop "o/r" extraction_start
           [bot_commit; human_commit; older_commit]).
Proof.
  apply (seen_commits_change_nothing "o/r" extraction_start
           [bot_commit; human_commit; older_commit]
           [older_commit; bot_commit]).
  intros c [->|[->|Hc]%elem_of_cons]%elem_of_cons.
  - apply list_elem_of_further, list_elem_of_further, list_elem_of_here.
  - apply list_elem_of_here.
  - by apply elem_of_nil in Hc.
Defined.

Lemma extraction_loop_raises {L : Lower} repo pre c post e : ∀ st,
  Forall (λ c, ∃ k, classify c = Ok k) pre →
  classify c = Raise e →
  extraction_loop repo st (pre ++ c :: post) = Raise e.
Proof.
  intros st Hpre Hc. rewrite extraction_loop_app.
  destruct (extraction_loop_total repo pre st Hpre) as [st1 ->]. simpl.
  by rewrite process_commit_classify, Hc.
Qed.

(** X6: a record whose author metadata holds an email that is not a
    string (a null, a number) makes extraction raise [AttributeError]:
    when the records before it are in order, the call returns no mapping
    at all, whatever it had collected and whatever follows. *)
Theorem email_not_a_string_aborts {L : Lower} repo pre c post akvs v :
  Forall (λ c, ∃ k, classify c = Ok k) pre →
  inner_author c = Ok (JObj akvs) → akvs ≠ [] →
  assoc "email" akvs = Some v → (∀ s, v ≠ JStr s) →
  process_commits_and_contributors (pre ++ c :: post) repo =
  Raise AttributeError.
Proof.
  intros Hpre Ha Hne He Hv. unfold process_commits_and_contributors.
  rewrite (extraction_loop_raises repo pre c post AttributeError); [done..|].
  unfold classify. rewrite Ha. simpl.
  destruct akvs as [|kv akvs]; [done|].
  remember (kv :: akvs) as a. simpl. rewrite He. simpl.
  destruct v; try done. by destruct (Hv s).
Qed.

Lemma email_not_a_string_aborts_witness :
  process_commits_and_contributors
    ([human_commit] ++
     commit_record (user "ann") [("name", JStr "Ann"); ("email", JNull)]
     :: [older_commit]) "o/r" = Raise AttributeError.
Proof.
  apply (email_not_a_string_aborts "o/r" [human_commit] _ [older_commit]
           [(lit "name", JStr "Ann"); (lit "email", JNull)] JNull).
  - apply Forall_singleton. eexists. reflexivity.
  - reflexivity.
  - discriminate.
  - reflexivity.
  - discriminate.
Defined.

(** ** [parse_link_header] *)

Lemma parse_link_parts_outcome parts : ∀ links,
  match parse_link_parts parts links with
  | Ok _ =>
      forallb (λ part,
                 match split ";"%char part with
                 | _ :: s1 :: _ =>
                     match split "="%char (strip s1) with
                     | _ :: _ :: _ => true
                     | _ => false
                     end
                 | _ => false
                 end) parts = true
  | Raise e =>
      e = IndexError ∧
      forallb (λ part,
                 match split ";"%char part with
                 | _ :: s1 :: _ =>
                     match split "="%char (strip s1) with
                     | _ :: _ :: _ => true
                     | _ => false
                     end
                 | _ => false
                 end) parts = false
  end.
Proof.
  induction parts as [|part parts IH]; intros links; simpl; [done|].
  destruct (split _ part) as [|s0 [|s1 ss]]; simpl; try done.
  destruct (split _ (strip s1)) as [|a [|b bs]]; simpl; try done.
  apply IH.
Qed.

(** X7: [parse_link_header] fails only with [IndexError], and exactly on
    the headers that have a segment without a second ";"-section or
    without an "=" in it; the empty header is one of them. *)
Theorem parse_link_header_outcome h :
  match parse_link_header h with
  | Ok _ => well_formed_link h = true
  | Raise e => e = IndexError ∧ well_formed_link h = false
  end ∧
  parse_link_header [] = Raise IndexError.
Proof. split; [apply parse_link_parts_outcome|reflexivity]. Qed.

Lemma count_char_app c (a b : str) :
  count_char c (a ++ b) = count_char c a + count_char c b.
Proof. induction a as [|x a IH]; simpl; [done|]. rewrite IH. lia. Qed.

Lemma split_plain sep a : count_char sep a = 0 → split sep a = [a].
Proof.
  induction a as [|x a IH]; simpl; [done|].
  destruct (x =? sep)%N; [done|]. simpl. intros H. by rewrite IH.
Qed.

Lemma split_append sep a b :
  count_char sep a = 0 →
  split sep (a ++ sep :: b) = a :: split sep b.
Proof.
  induction a as [|x a IH]; intros H; simpl in *.
  - by rewrite N.eqb_refl.
  - destruct (x =? sep)%N; [done|]. by rewrite IH.
Qed.

Lemma lstrip_with_append p (a : str) c r :
  p c = false →
  lstrip_with p (a ++ c :: r) = lstrip_with p a ++ c :: r.
Proof.
  intros Hc. induction a as [|x a IH]; simpl.
  - by rewrite Hc.
  - by destruct (p x).
Qed.

Lemma count_char_lstrip c p s :
  count_char c s = 0 → count_char c (lstrip_with p s) = 0.
Proof.
  induction s as [|x s IH]; simpl; [done|].
  destruct (p x); simpl; [|done]. intros H. apply IH. lia.
Qed.

Lemma rstrip_with_last p (s : str) c :
  p c = false → rstrip_with p (s ++ [c]) = s ++ [c].
Proof.
  intros Hc. induction s as [|x s IH]; simpl.
  - by rewrite Hc.
  - rewrite IH. by destruct s.
Qed.

Lemma rstrip_with_drop p (s : str) c :
  p c = true → rstrip_with p (s ++ [c]) = rstrip_with p s.
Proof.
  intros Hc. induction s as [|x s IH]; simpl.
  - by rewrite Hc.
  - by rewrite IH.
Qed.

Lemma rstrip_with_plain c (s : str) :
  count_char c s = 0 → rstrip_with (λ x, (x =? c)%N) s = s.
Proof.
  induction s as [|x s IH]; simpl; [done|].
  destruct (x =? c)%N eqn:E; [done|]. simpl. intros H.
  rewrite (IH H). by destruct s.
Qed.

Lemma drop_last_append (s : str) c : drop_last (s ++ [c]) = s.
Proof.
  induction s as [|x s IH]; [done|].
  simpl. rewrite IH. by destruct s.
Qed.

Lemma strip_with_quoted q rel :
  count_char q rel = 0 →
  strip_with (λ c, (c =? q)%N) (q :: rel ++ [q]) = rel.
Proof.
  intros H. unfold strip_with. simpl lstrip_with. rewrite N.eqb_refl.
  destruct rel as [|x rel]; simpl in *.
  - by rewrite N.eqb_refl.
  - destruct (x =? q)%N eqn:E; [done|].
    change (x :: rel ++ [q]) with ((x :: rel) ++ [q]).
    rewrite rstrip_with_drop by apply N.eqb_refl.
    apply rstrip_with_plain. simpl. by rewrite E.
Qed.

Lemma strip_quotes_quoted rel :
  count_char quote rel = 0 → strip_quotes (quote :: rel ++ [quote]) = rel.
Proof. apply (strip_with_quoted quote). Qed.

Lemma parse_link_parts_cons part rest links :
  parse_link_parts (part :: rest) links =
  s0 ← index (split ";"%char part) 0;
  s1 ← index (split ";"%char part) 1;
  r ← index (split "="%char (strip s1)) 1;
  parse_link_parts rest (<[strip_quotes r := slice_1_m1 (strip s0)]> links).
Proof. reflexivity. Qed.

Lemma count_char_cons c x s :
  count_char c (x :: s) = (if (x =? c)%N then 1 else 0) + count_char c s.
Proof. reflexivity. Qed.

Lemma count_char_quoted c rel :
  (quote =? c)%N = false → count_char c rel = 0 →
  count_char c (quote :: rel ++ [quote]) = 0.
Proof.
  intros Hq Hrel.
  by rewrite count_char_cons, count_char_app, count_char_cons, Hq, Hrel.
Qed.

Lemma strip_bracketed ws u :
  lead ws → slice_1_m1 (strip (ws ++ chr "<" :: u ++ [chr ">"])) = u.
Proof.
  intros Hws. unfold strip, strip_with.
  assert (Hl : lstrip_with isspace (ws ++ chr "<" :: u ++ [chr ">"]) =
               (chr "<" :: u) ++ [chr ">"]).
  { by destruct Hws as [-> | ->]. }
  rewrite Hl, rstrip_with_last by done.
  simpl. apply drop_last_append.
Qed.

Lemma strip_parameter param rel :
  strip (chr " " :: param ++ chr "=" :: quote :: rel ++ [quote])
  = lstrip_with isspace param ++ chr "=" :: quote :: rel ++ [quote].
Proof.
  unfold strip, strip_with.
  change (lstrip_with isspace (chr " " :: ?s)) with (lstrip_with isspace s).
  rewrite lstrip_with_append by done.
  assert (Hre : ∀ a : str,
            a ++ chr "=" :: quote :: rel ++ [quote] =
            (a ++ chr "=" :: quote :: rel) ++ [quote]).
  { intros a. by rewrite <- app_assoc. }
  rewrite Hre. by rewrite rstrip_with_last.
Qed.

Lemma render_link_eq param u rel :
  render_link param (u, rel) =
  (chr "<" :: u ++ [chr ">"]) ++
  chr ";" :: chr " " :: param ++ chr "=" :: quote :: rel ++ [quote].
Proof.
  unfold render_link. cbn [fst snd].
  change (lit "<") with [chr "<"]. change (lit ">; ") with [chr ">"; chr ";"; chr " "].
  change (lit "=") with [chr "="]. simpl. by rewrite <- !app_assoc.
Qed.

Lemma split_rendered ws param u rel :
  lead ws → plain_param param → plain_link (u, rel) →
  split ";"%char (ws ++ render_link param (u, rel)) =
  [ws ++ chr "<" :: u ++ [chr ">"];
   chr " " :: param ++ chr "=" :: quote :: rel ++ [quote]].
Proof.
  intros Hws (_ & Hp & _) (_ & Hu & _ & Hr & _ & _). simpl in *.
  rewrite render_link_eq, app_assoc, split_append.
  - f_equal. apply split_plain.
    simpl. rewrite count_char_app, Hp. simpl.
    by rewrite count_char_app, Hr.
  - rewrite count_char_app. simpl. rewrite count_char_app, Hu.
    by destruct Hws as [-> | ->].
Qed.

Lemma parse_rendered_part ws param u rel rest links :
  lead ws → plain_param param → plain_link (u, rel) →
  parse_link_parts ((ws ++ render_link param (u, rel)) :: rest) links =
  parse_link_parts rest (<[rel := u]> links).
Proof.
  intros Hws Hparam Hlink.
  rewrite parse_link_parts_cons, split_rendered by done. simpl.
  rewrite strip_bracketed by done. rewrite strip_parameter.
  destruct Hparam as (_ & _ & Hp). destruct Hlink as (_ & _ & _ & _ & He & Hq).
  simpl in *.
  rewrite split_append by (by apply count_char_lstrip).
  rewrite split_plain by (by apply count_char_quoted).
  simpl. by rewrite strip_quotes_quoted.
Qed.

Lemma count_char_rendered param lk :
  plain_param param → plain_link lk →
  count_char ","%char (render_link param lk) = 0.
Proof.
  intros (Hp & _ & _) (Hu & _ & Hr & _). destruct lk as [u rel].
  rewrite render_link_eq. simpl in *.
  rewrite !count_char_app, Hu. simpl.
  rewrite count_char_app, Hp. simpl. by rewrite count_char_app, Hr.
Qed.

Lemma split_rendered_links param lks : ∀ lk,
  plain_param param → Forall plain_link (lk :: lks) →
  split ","%char (render_links param (lk :: lks)) =
  render_link param lk ::
  ((λ lk, chr " " :: render_link param lk) <$> lks).
Proof.
  induction lks as [|lk2 lks IH]; intros lk Hparam Hall.
  - apply Forall_cons in Hall as [Hlk _].
    change (render_links param [lk]) with (render_link param lk).
    rewrite fmap_nil. by apply split_plain, count_char_rendered.
  - apply Forall_cons in Hall as [Hlk Hrest].
    change (render_links param (lk :: lk2 :: lks))
      with (render_link param lk ++
            chr "," :: chr " " :: render_links param (lk2 :: lks)).
    rewrite split_append by (by apply count_char_rendered).
    f_equal. change (split ","%char (chr " " :: ?s))
      with (match split ","%char s with
            | [] => [[chr " "]]
            | w :: ws => (chr " " :: w) :: ws
            end).
    by rewrite (IH lk2).
Qed.

Lemma parse_rendered_parts param lks : ∀ links,
  plain_param param → Forall plain_link lks →
  parse_link_parts ((λ lk, chr " " :: render_link param lk) <$> lks) links
  = Ok (foldl (λ links lk, <[lk.2 := lk.1]> links) links lks).
Proof.
  induction lks as [|[u rel] lks IH]; intros links Hparam Hall; [done|].
  apply Forall_cons in Hall as [Hlk Hrest].
  rewrite fmap_cons.
  change (chr " " :: render_link param (u, rel))
    with ([chr " "] ++ render_link param (u, rel)).
  rewrite parse_rendered_part by (try done; by right).
  by rewrite IH.
Qed.

(** X8: a Link header written for a list of URLs and relations is read
    back as the mapping from each relation to its URL, a later segment
    winning over an earlier one with the same relation.  The name of the
    parameter that holds the relation plays no part: whatever stands
    before the "=" is taken for it. *)
Theorem link_header_round_trip param lk lks :
  plain_param param → Forall plain_link (lk :: lks) →
  parse_link_header (render_links param (lk :: lks)) =
  Ok (foldl (λ links lk, <[lk.2 := lk.1]> links) ∅ (lk :: lks)).
Proof.
  intros Hparam Hall. unfold parse_link_header.
  rewrite split_rendered_links by done.
  apply Forall_cons in Hall as [Hlk Hrest]. destruct lk as [u rel].
  change (render_link param (u, rel))
    with ([] ++ render_link param (u, rel)).
  rewrite parse_rendered_part by (try done; by left).
  by rewrite parse_rendered_parts.
Qed.

Lemma link_header_round_trip_witness :
  parse_link_header
    (render_links "rel"
       [(lit "https://api.github.com/x?page=2", lit "next");
        (lit "https://api.github.com/x?page=9", lit "last")]) =
  Ok (<[lit "last" := lit "https://api.github.com/x?page=9"]>
        (<[lit "next" := lit "https://api.github.com/x?page=2"]> ∅)).
Proof.
  apply (link_header_round_trip "rel"
           (lit "https://api.github.com/x?page=2", lit "next")
           [(lit "https://api.github.com/x?page=9", lit "last")]).
  - repeat split; reflexivity.
  - repeat constructor; reflexivity.
Defined.

(** ** The walker: warnings, URLs and bodies *)

Lemma iteration_warns mr st u x :
  match iteration mr st u x with
  | Normal st' =>
      errors_warnings (trace st') = errors_warnings (trace st) ∧
      sleeps (trace st') = sleeps (trace st)
  | Continue st' | Break st' => errors_warnings (trace st') = true
  | Raised _ _ => True
  end.
Proof.
  turn x r; try done; trace_simpl;
    rewrite ?errors_warnings_app; simpl;
    rewrite ?orb_false_r, ?orb_true_r; done.
Qed.

Lemma while_url_unflagged mr script : ∀ st st',
  while_url mr script st = Returned st' →
  errors_warnings (trace st') = false →
  loop_test st' = None ∧ sleeps (trace st') = sleeps (trace st) ∧
  errors_warnings (trace st) = false.
Proof.
  induction script as [|x script IH]; intros st st'; simpl.
  - destruct (loop_test st) eqn:Ht; [done|]. by intros [= <-].
  - destruct (loop_test st) as [u|] eqn:Ht; [|by intros [= <-]].
    pose proof (iteration_warns mr st u x) as Hw.
    destruct (iteration mr st u x) as [st1|st1|st1|]; try done.
    + intros H Hf. destruct (IH _ _ H Hf) as (? & Hs & Hf1).
      destruct Hw as [Hw1 Hs1]. by rewrite Hs, Hs1, <- Hw1.
    + intros H Hf. destruct (IH _ _ H Hf) as (_ & _ & Hf1). congruence.
    + intros [= <-] Hf. congruence.
Qed.

(** X9: results cut short are always flagged.  If the walker returns and
    its log holds no warning, it stopped because the last page named no
    next page, and it never slept: a 404, a 403, a timeout, an HTTP error
    or a failure of the transport each leave a warning, which raises the
    errors-or-warnings flag. *)
Theorem partial_results_are_flagged owner repo api_url mr script st' :
  fetch_commits_for_repo owner repo api_url mr script = Returned st' →
  errors_warnings (trace st') = false →
  loop_test st' = None ∧ sleeps (trace st') = [].
Proof.
  intros H Hf. by destruct (while_url_unflagged _ _ _ _ H Hf) as (? & ? & _).
Qed.

Lemma partial_results_are_flagged_witness :
  ∃ st', fetch_commits_for_repo "o" "r" "https://api.github.com"
           DEFAULT_MAX_RETRIES
           [page [human_commit]
              (Some (lit "<https://api.github.com/x?page=2>; rel=next"));
            page [older_commit] None] = Returned st' ∧
         loop_test st' = None ∧ sleeps (trace st') = [].
Proof.
  eexists. split; [vm_compute; reflexivity|].
  eapply (partial_results_are_flagged "o" "r" "https://api.github.com"
            DEFAULT_MAX_RETRIES
            [page [human_commit]
               (Some (lit "<https://api.github.com/x?page=2>; rel=next"));
             page [older_commit] None]).
  - vm_compute. reflexivity.
  - vm_compute. reflexivity.
Defined.

Lemma loop_test_url st u : loop_test st = Some u → url st = Some u ∧ u ≠ [].
Proof.
  unfold loop_test. destruct (url st) as [[|c v]|]; [done| |done].
  by intros [= <-].
Qed.

Lemma iteration_next mr st u x :
  match iteration mr st u x with
  | Normal st' =>
      url st' = None ∨ ∃ v, url st' = Some v ∧ names_next x v
  | Continue st' => url st' = url st
  | _ => True
  end.
Proof.
  turn x r; try done.
  - destruct (links !! _) as [w|] eqn:Hw; [|by left].
    right. exists w. split; [done|]. by exists r, h, links.
  - by left.
Qed.

Lemma while_url_fetches mr script : ∀ st st' v,
  while_url mr script st = Returned st' ∨
  while_url mr script st = Waiting st' →
  v ∈ fetched (trace st') →
  v ∈ fetched (trace st) ∨
  v ≠ [] ∧ (url st = Some v ∨ ∃ x, x ∈ script ∧ names_next x v).
Proof.
  induction script as [|x script IH]; intros st st' v; simpl.
  - destruct (loop_test st); intros [[= <-]|[= <-]]; by left.
  - destruct (loop_test st) as [u|] eqn:Ht;
      [|intros [[= <-]|[=]]; by left].
    apply loop_test_url in Ht as [Hu Hne].
    pose proof (iteration_turn mr st u x) as Hturn.
    pose proof (iteration_next mr st u x) as Hnext.
    destruct (iteration mr st u x) as [st1|st1|st1|e st1].
    + intros H Hv. destruct Hturn as (_ & _ & Hf).
      destruct (IH _ _ v H Hv) as [Hin|[Hv0 [Hin|(y & Hy & Hn)]]].
      * rewrite Hf in Hin.
        apply elem_of_app in Hin as [?| ->%list_elem_of_singleton];
          [by left|right; eauto].
      * destruct Hnext as [Hnone|(w & Hw & Hn)]; [congruence|].
        right. split; [done|]. right. exists x. split; [by left|]. congruence.
      * right. split; [done|]. right. exists y. split; [by right|done].
    + intros H Hv. destruct Hturn as (_ & _ & Hf).
      destruct (IH _ _ v H Hv) as [Hin|[Hv0 [Hin|(y & Hy & Hn)]]].
      * rewrite Hf in Hin.
        apply elem_of_app in Hin as [?| ->%list_elem_of_singleton];
          [by left|right; eauto].
      * right. split; [done|]. left. congruence.
      * right. split; [done|]. right. exists y. split; [by right|done].
    + intros [[= <-]|[=]] Hv. destruct Hturn as (_ & Hf). rewrite Hf in Hv.
      apply elem_of_app in Hv as [?| ->%list_elem_of_singleton];
        [by left|right; eauto].
    + by intros [[=]|[=]].
Qed.

(** X10: the walker requests nothing but the commit listing of the
    repository and the URLs that a response it received named as the next
    page; it never requests an empty URL. *)
Theorem walker_follows_the_server owner repo api_url mr script st' v :
  fetch_commits_for_repo owner repo api_url mr script = Returned st' ∨
  fetch_commits_for_repo owner repo api_url mr script = Waiting st' →
  v ∈ fetched (trace st') →
  v ≠ [] ∧
  (v = api_url ++ "/repos/" ++ owner ++ "/" ++ repo ++ "/commits" ∨
   ∃ x, x ∈ script ∧ names_next x v).
Proof.
  intros H Hv.
  destruct (while_url_fetches _ _ _ _ v H Hv) as [Hin|[Hne [Hu|Hx]]].
  - by apply elem_of_nil in Hin.
  - split; [done|]. left. simpl in Hu. injection Hu as <-. reflexivity.
  - split; [done|]. by right.
Qed.

Lemma walker_follows_the_server_witness :
  lit "https://api.github.com/x?page=2" ≠ [] ∧
  (lit "https://api.github.com/x?page=2" =
     lit "https://api.github.com/repos/o/r/commits" ∨
   ∃ x, x ∈ [page [human_commit]
               (Some (lit "<https://api.github.com/x?page=2>; rel=next"));
             timed_out] ∧
        names_next x "https://api.github.com/x?page=2").
Proof.
  destruct (fetch_commits_for_repo "o" "r" "https://api.github.com"
              DEFAULT_MAX_RETRIES
              [page [human_commit]
                 (Some (lit "<https://api.github.com/x?page=2>; rel=next"));
               timed_out]) as [s|e s|st'] eqn:Hw;
    [vm_compute in Hw; discriminate..|].
  pose proof Hw as Hv. vm_compute in Hv. injection Hv as Hv.
  apply (walker_follows_the_server "o" "r" "https://api.github.com"
           DEFAULT_MAX_RETRIES
           [page [human_commit]
              (Some (lit "<https://api.github.com/x?page=2>; rel=next"));
            timed_out] st').
  - right. exact Hw.
  - rewrite <- Hv. vm_compute.
    apply list_elem_of_further, list_elem_of_here.
Defined.

(** ** One repository *)

Lemma loop_test_start owner repo api_url :
  loop_test (walker_start owner repo api_url) =
  Some (api_url ++ "/repos/" ++ owner ++ "/" ++ repo ++ "/commits").
Proof. unfold loop_test. simpl. by destruct api_url. Qed.

Lemma single_page_walk mr st u x r v items rest :
  loop_test st = Some u →
  answer x = Returns r → status_code r = 200%Z → link r = None →
  json_body r = Some v → iterate v = Ok items →
  ∃ st', while_url mr (x :: rest) st = Returned st' ∧
         all_commits st' = all_commits st ++ items.
Proof.
  intros Hu Hx Hs Hl Hb Hi. rewrite (while_url_cons _ _ _ _ u Hu).
  unfold iteration, try_block, response_json.
  rewrite Hx, Hs, Hl, Hb. simpl. rewrite Hi. simpl.
  rewrite while_url_stopped by done. eauto.
Qed.

Lemma unreadable_page_walk mr st u x r v rest :
  loop_test st = Some u →
  answer x = Returns r → status_code r = 200%Z →
  json_body r = Some v → iterate v = Raise TypeError →
  ∃ st', while_url mr (x :: rest) st = Uncaught TypeError st'.
Proof.
  intros Hu Hx Hs Hb Hi. rewrite (while_url_cons _ _ _ _ u Hu).
  unfold iteration, try_block, response_json.
  rewrite Hx, Hs, Hb. simpl. rewrite Hi. simpl. eauto.
Qed.

(** X11: a page whose JSON body is not an array is not refused as such.
    With status 200 and no Link header, a null, boolean or number body
    makes the job raise [TypeError], which the walker does not catch; an
    object or a string is taken for a sequence, its keys or characters
    are appended as records, and extraction raises [AttributeError] on
    the first of them; only when it is empty does the job return, with no
    row. *)
Theorem body_that_is_no_array {L : Lower} repo api_url owner repo_name x r v rest :
  split "/"%char repo = [owner; repo_name] →
  answer x = Returns r → status_code r = 200%Z → link r = None →
  json_body r = Some v →
  match v with
  | JArr _ => True
  | JNull | JBool _ | JNum _ =>
      process_single_repository repo api_url (x :: rest) =
      Done (Raise TypeError)
  | JObj [] | JStr [] =>
      process_single_repository repo api_url (x :: rest) = Done (Ok [])
  | JObj _ | JStr _ =>
      process_single_repository repo api_url (x :: rest) =
      Done (Raise AttributeError)
  end.
Proof.
  intros Hsplit Hx Hs Hl Hb. unfold process_single_repository.
  rewrite Hsplit. unfold fetch_commits_for_repo.
  pose proof (loop_test_start owner repo_name api_url) as Hu.
  destruct v as [|b|n|s|xs|kvs]; try done.
  1-3: destruct (unreadable_page_walk DEFAULT_MAX_RETRIES _ _ x r _ rest
                   Hu Hx Hs Hb eq_refl) as [st' ->]; done.
  - destruct (single_page_walk DEFAULT_MAX_RETRIES _ _ x r _
                ((λ c, JStr [c]) <$> s)
                rest Hu Hx Hs Hl Hb eq_refl) as (st' & -> & ->).
    by destruct s.
  - destruct (single_page_walk DEFAULT_MAX_RETRIES _ _ x r _
                (JStr <$> kvs.*1) rest Hu Hx Hs Hl Hb eq_refl)
      as (st' & -> & ->).
    by destruct kvs as [|[k w] kvs].
Qed.

Lemma body_that_is_no_array_witness :
  process_single_repository "o/r" "https://api.github.com"
    [body_only (obj [("message", JStr "Moved"); ("url", JStr "u")])] =
  Done (Raise AttributeError).
Proof.
  apply (body_that_is_no_array "o/r" "https://api.github.com" "o" "r"
           (body_only (obj [("message", JStr "Moved"); ("url", JStr "u")]))
           {| status_code := 200; link := None; ratelimit_reset := None;
              json_body := Some (obj [("message", JStr "Moved");
                                      ("url", JStr "u")]) |}
           (obj [("message", JStr "Moved"); ("url", JStr "u")]) []);
    reflexivity.
Defined.

Lemma split_length sep s : length (split sep s) = S (count_char sep s).
Proof.
  induction s as [|c s IH]; simpl; [done|].
  destruct (c =? sep)%N; simpl; [by rewrite IH|].
  destruct (split sep s); simpl in *; lia.
Qed.

(** X12: a line of the input file is a repository when it holds exactly
    one "/": it then splits into the owner and the name that compose it.
    With no "/" or with more than one, unpacking the split raises
    [ValueError], whatever the server would have answered. *)
Theorem repository_has_one_slash {L : Lower} repo api_url script :
  if decide (count_char "/"%char repo = 1) then
    ∃ owner repo_name, split "/"%char repo = [owner; repo_name] ∧
                       repo = owner ++ "/" ++ repo_name
  else process_single_repository repo api_url script = Done (Raise ValueError).
Proof.
  pose proof (split_length "/"%char repo) as Hlen.
  destruct (decide (count_char "/"%char repo = 1)) as [H1|H1].
  - rewrite H1 in Hlen.
    destruct (split _ repo) as [|owner [|repo_name [|]]] eqn:Hs; try done.
    exists owner, repo_name. split; [done|]. by apply split_two in Hs.
  - unfold process_single_repository.
    destruct (split _ repo) as [|owner [|repo_name [|]]] eqn:Hs; try done.
    cbn [length] in Hlen. lia.
Qed.

Lemma results_of_emails {L : Lower} owner repo_name cs :
  keyed_by_email cs → row_email <$> results_of owner repo_name cs = cs.*1.
Proof.
  unfold results_of. induction cs as [|[k v] cs IH]; intros Hk; [done|].
  apply Forall_cons in Hk as [[Hv _] Hrest]. simpl in *.
  rewrite Hv. f_equal. by apply IH.
Qed.

(** X13: the rows a job returns all carry the name of its repository,
    their emails are in lower case and pairwise distinct, so that the
    count the summary shows for the repository is the number of its rows
    in the report. *)
Theorem job_rows {L : Lower} repo api_url script result :
  process_single_repository repo api_url script = Done (Ok result) →
  Forall (λ rw, row_repo rw = repo ∧ lower (row_email rw) = row_email rw)
    result ∧
  NoDup (row_email <$> result) ∧
  size (unique_emails result) = length result.
Proof.
  intros H.
  assert (Hrepo : ∀ rw, rw ∈ result → row_repo rw = repo).
  { intros rw. by apply (process_single_repository_rows _ _ _ _ _ H). }
  unfold process_single_repository in H.
  destruct (split _ repo) as [|owner [|repo_name [|]]]; try done.
  destruct (fetch_commits_for_repo _ _ _ _ _) as [st| |]; try done.
  unfold process_commits_and_contributors in H.
  destruct (extraction_loop repo extraction_start (all_commits st))
    as [ex|] eqn:Hloop; simpl in H; [|done].
  injection H as <-.
  assert (Hnd : NoDup ((contributors ex).*1)).
  { eapply extraction_loop_keys; [exact Hloop|]. apply NoDup_nil_2. }
  destruct (extraction_loop_keyed _ _ _ _ Hloop) as [Hkeyed _];
    [by apply Forall_nil|].
  pose proof (results_of_emails owner repo_name _ Hkeyed) as Hemails.
  split; [|split].
  - apply Forall_forall. intros rw Hrw. split; [by apply Hrepo|].
    assert (Hin : row_email rw ∈ (contributors ex).*1).
    { rewrite <- Hemails. apply list_elem_of_fmap. eauto. }
    apply list_elem_of_fmap in Hin as ([k v] & Hk & Hin).
    unfold keyed_by_email in Hkeyed. rewrite Forall_forall in Hkeyed.
    destruct (Hkeyed _ Hin) as [_ Hlow].
    simpl in *. by rewrite Hk.
  - by rewrite Hemails.
  - unfold unique_emails. rewrite size_list_to_set by (by rewrite Hemails).
    by rewrite length_fmap.
Qed.

Lemma job_rows_witness :
  Forall (λ rw, row_repo rw = lit "o/r" ∧ lower (row_email rw) = row_email rw)
    [ann_row "o/r"] ∧
  NoDup (row_email <$> [ann_row "o/r"]) ∧
  size (unique_emails [ann_row "o/r"]) = length [ann_row "o/r"].
Proof.
  apply (job_rows "o/r" "https://api.github.com"
           [page [human_commit; older_commit] None]).
  vm_compute. reflexivity.
Defined.

Lemma pages_walk mr script : ∀ records extra st u,
  loop_test st = Some u → pages script records →
  ∃ st', while_url mr (script ++ extra) st = Returned st' ∧
         all_commits st' = all_commits st ++ concat records.
Proof.
  induction script as [|x script IH]; intros records extra st u Hu Hp;
    [done|].
  destruct records as [|items more]; [done|].
  destruct Hp as (next & Hpage & Hrest).
  destruct (page_turn mr st u x items next Hpage)
    as (st1 & Hturn & Hurl & Hc & _).
  simpl app. rewrite (while_url_cons _ _ _ _ u Hu), Hturn.
  destruct script as [|y script].
  - destruct Hrest as (-> & Hnext). exists st1.
    rewrite while_url_stopped.
    + rewrite Hc. simpl. by rewrite app_nil_r.
    + unfold loop_test. rewrite Hurl. by destruct Hnext as [-> | ->].
  - destruct Hrest as ((u' & -> & Hne) & Hmore).
    destruct (IH more extra st1 u') as (st' & Hw & Hc'); [|done|].
    { unfold loop_test. rewrite Hurl. by destruct u'. }
    exists st'. split; [exact Hw|].
    rewrite Hc', Hc, <- app_assoc. done.
Qed.

(** X14: the walker and the extraction compose.  For a repository named
    owner/name whose listing comes as a run of pages, the job returns the
    rows of the mapping that extraction builds from the records of all the
    pages taken together, in order, or raises what extraction raises. *)
Theorem job_is_extraction_of_all_pages {L : Lower} repo api_url owner repo_name script
    records extra :
  split "/"%char repo = [owner; repo_name] →
  pages script records →
  process_single_repository repo api_url (script ++ extra) =
  Done (contributors ←
          process_commits_and_contributors (concat records) repo;
        Ok (results_of owner repo_name contributors)).
Proof.
  intros Hsplit Hp. unfold process_single_repository. rewrite Hsplit.
  unfold fetch_commits_for_repo.
  destruct (pages_walk DEFAULT_MAX_RETRIES script records extra
              (walker_start owner repo_name api_url) _
              (loop_test_start owner repo_name api_url) Hp)
    as (st' & -> & ->).
  done.
Qed.

Lemma job_is_extraction_of_all_pages_witness :
  process_single_repository "o/r" "https://api.github.com"
    ([page [bot_commit; human_commit]
        (Some (lit "<https://api.github.com/x?page=2>; rel=next"));
      page [older_commit] None] ++ [timed_out]) =
  Done (contributors ←
          process_commits_and_contributors
            (concat [[bot_commit; human_commit]; [older_commit]]) "o/r";
        Ok (results_of "o" "r" contributors)).
Proof.
  apply (job_is_extraction_of_all_pages "o/r" "https://api.github.com"
           "o" "r").
  - reflexivity.
  - eexists. split.
    + eexists. repeat split; try done. simpl.
      eexists. split; [vm_compute; reflexivity|reflexivity].
    + split; [by eexists|].
      exists None. split; [|by eauto].
      eexists. repeat split; done.
Defined.

(** ** The orchestrator: order of completion, the flag, the input file *)

Lemma succeeded_Permutation completed completed' :
  completed ≡ₚ completed' →
  concat (succeeded completed) ≡ₚ concat (succeeded completed').
Proof.
  induction 1 as [|[repo r] l l' _ IH|[repo1 r1] [repo2 r2] l|l1 l2 l3 _ IH1 _ IH2].
  - done.
  - unfold succeeded in *. destruct r as [result|e]; simpl; [|done].
    by rewrite IH.
  - unfold succeeded. destruct r1 as [a|], r2 as [b|]; simpl; try done.
    rewrite !app_assoc. f_equiv. apply Permutation_app_comm.
  - by etrans.
Qed.

Lemma has_result_or_not (completed : list (str * result (list row))) repo :
  (∃ result, (repo, Ok result) ∈ completed) ∨
  (∀ result, (repo, Ok result) ∉ completed).
Proof.
  induction completed as [|[repo' r] completed IH].
  - right. intros result Hin. by apply elem_of_nil in Hin.
  - destruct IH as [[result Hin]|Hno].
    { left. exists result. by right. }
    destruct r as [result|e], (decide (repo' = repo)) as [->|Hne].
    + left. exists result. by left.
    + right. intros res [[=]|Hin]%elem_of_cons; [done|by apply (Hno res)].
    + right. intros res [[=]|Hin]%elem_of_cons. by apply (Hno res).
    + right. intros res [[=]|Hin]%elem_of_cons. by apply (Hno res).
Qed.

Lemma assoc_app_fresh {A} (k k' : str) (v : A) d :
  assoc k d = None → k ≠ k' → assoc k (d ++ [(k', v)]) = None.
Proof.
  intros Hd Hne. induction d as [|[k0 v0] d IH]; simpl in *.
  - by rewrite decide_False.
  - destruct (decide (k = k0)); [done|]. by apply IH.
Qed.

(** For jobs on distinct repositories, the summary gets its lines in the
    order of completion. *)
Lemma collect_summary completed : ∀ agg,
  NoDup (completed.*1) →
  (∀ repo, repo ∈ completed.*1 → assoc repo (repo_contributor_map agg) = None) →
  repo_contributor_map (foldl collect agg completed) =
  repo_contributor_map agg ++ summary_lines completed.
Proof.
  induction completed as [|[repo r] completed IH]; intros agg Hnd Hfresh.
  - simpl. by rewrite app_nil_r.
  - simpl in Hnd. apply NoDup_cons in Hnd as [Hrepo Hnd].
    assert (Hr : assoc repo (repo_contributor_map agg) = None).
    { apply Hfresh. by left. }
    simpl foldl. rewrite IH; [|done|].
    + unfold summary_lines. destruct r as [result|e]; simpl; [|done].
      by rewrite dict_set_fresh, <- app_assoc.
    + intros repo' Hin.
      assert (Hne : repo' ≠ repo) by (by intros ->).
      destruct r as [result|e]; simpl.
      * rewrite dict_set_fresh by done. apply assoc_app_fresh; [|done].
        apply Hfresh. by right.
      * apply Hfresh. by right.
Qed.

(** The log gets its lines in the order of completion. *)
Lemma collect_run_log completed : ∀ agg,
  run_log (foldl collect agg completed) =
  run_log agg ++ failure_lines completed.
Proof.
  induction completed as [|[repo [result|e]] completed IH]; intros agg.
  - simpl. by rewrite app_nil_r.
  - simpl foldl. by rewrite IH.
  - simpl foldl. rewrite IH. simpl. by rewrite <- app_assoc.
Qed.

(** X15: the order in which the jobs complete is the order of the rows of
    the report, of the lines of the summary and of the lines of the log,
    and decides nothing else.  For jobs on distinct repositories, the
    summary has one line for each job that returned and the log two lines
    for each job that raised, in the order of completion; two orders of
    completion give the same count for every repository, the same total,
    and the same rows, summary lines and log lines up to their order. *)
Theorem completion_order_is_immaterial completed completed' :
  NoDup (completed.*1) → completed ≡ₚ completed' →
  let out := process_repositories completed in
  let out' := process_repositories completed' in
  summary out = summary_lines completed ∧
  output_log out = failure_lines completed ∧
  (∀ repo, assoc repo (summary out) = assoc repo (summary out')) ∧
  total_unique_contributors out = total_unique_contributors out' ∧
  csv_rows out ≡ₚ csv_rows out' ∧
  summary out ≡ₚ summary out' ∧
  output_log out ≡ₚ output_log out'.
Proof.
  intros Hnd Hperm out out'.
  assert (Hnd' : NoDup (completed'.*1)) by (by rewrite <- Hperm).
  assert (Hrows : csv_rows out ≡ₚ csv_rows out').
  { unfold out, out', process_repositories. simpl. rewrite !collect_rows.
    simpl. by apply succeeded_Permutation. }
  assert (Hsum : ∀ l, NoDup (l.*1) →
            summary (process_repositories l) = summary_lines l).
  { intros l Hl. unfold process_repositories. simpl.
    by rewrite collect_summary. }
  assert (Hlog : ∀ l, output_log (process_repositories l) = failure_lines l).
  { intros l. unfold process_repositories. simpl.
    by rewrite collect_run_log. }
  split; [by apply Hsum|]. split; [by apply Hlog|].
  split; [|split; [|split; [done|split]]].
  - intros repo. unfold out, out', process_repositories. simpl.
    destruct (has_result_or_not completed repo) as [[result Hin]|Hno].
    + rewrite (collect_map_count completed repo result) by done.
      rewrite (collect_map_count completed' repo result); [done..|].
      by rewrite <- Hperm.
    + rewrite !collect_map_other; [done| |done].
      intros result Hin. apply (Hno result). by rewrite Hperm.
  - unfold out, out', process_repositories in *. simpl in *.
    unfold unique_emails. by rewrite Hrows.
  - unfold out, out'. rewrite !Hsum by done. unfold summary_lines.
    by rewrite Hperm.
  - unfold out, out'. rewrite !Hlog. unfold failure_lines. by rewrite Hperm.
Qed.

Lemma completion_order_is_immaterial_witness :
  let out := process_repositories
               [(lit "o/r", Ok [ann_row "o/r"; bea_row "o/r"]);
                (lit "o/s", Ok [ann_row "o/s"])] in
  let out' := process_repositories
                [(lit "o/s", Ok [ann_row "o/s"]);
                 (lit "o/r", Ok [ann_row "o/r"; bea_row "o/r"])] in
  summary out = [(lit "o/r", 2); (lit "o/s", 1)] ∧
  summary out' = [(lit "o/s", 1); (lit "o/r", 2)] ∧
  summary out ≡ₚ summary out' ∧
  total_unique_contributors out = total_unique_contributors out'.
Proof.
  destruct (completion_order_is_immaterial
              [(lit "o/r", Ok [ann_row "o/r"; bea_row "o/r"]);
               (lit "o/s", Ok [ann_row "o/s"])]
              [(lit "o/s", Ok [ann_row "o/s"]);
               (lit "o/r", Ok [ann_row "o/r"; bea_row "o/r"])])
    as (_ & _ & _ & Ht & _ & Hp & _).
  - apply (bool_decide_unpack _). vm_compute. exact I.
  - apply perm_swap.
  - intros out out'. split; [vm_compute; reflexivity|].
    split; [vm_compute; reflexivity|]. split; [exact Hp|exact Ht].
Defined.

Lemma collect_flag completed : ∀ agg,
  errors_warnings (run_log (foldl collect agg completed)) =
  errors_warnings (run_log agg) ||
  existsb (λ finished, match finished.2 with
                       | Raise _ => true
                       | Ok _ => false
                       end) completed.
Proof.
  induction completed as [|[repo [result|e]] completed IH]; intros agg; simpl.
  - by rewrite orb_false_r.
  - by rewrite IH.
  - rewrite IH. simpl. rewrite errors_warnings_app. simpl.
    by rewrite !orb_true_r.
Qed.

(** X16: the collecting loop logs an error for a job exactly when the job
    raised: its own log raises the errors-or-warnings flag if and only if
    some job raised. *)
Theorem flag_tells_failed_jobs completed :
  errors_warnings (output_log (process_repositories completed)) = true ↔
  ∃ repo e, (repo, Raise e) ∈ completed.
Proof.
  unfold process_repositories. simpl. rewrite collect_flag. simpl.
  rewrite existsb_exists. split.
  - intros ([repo [result|e]] & Hin & Hf); [done|].
    exists repo, e. by apply list_elem_of_In.
  - intros (repo & e & Hin). exists (repo, Raise e).
    split; [by apply list_elem_of_In|done].
Qed.

Lemma lstrip_with_idemp p s :
  lstrip_with p (lstrip_with p s) = lstrip_with p s.
Proof.
  induction s as [|c s IH]; simpl; [done|].
  destruct (p c) eqn:E; [done|]. simpl. by rewrite E.
Qed.

Lemma rstrip_with_idemp p s :
  rstrip_with p (rstrip_with p s) = rstrip_with p s.
Proof.
  induction s as [|c s IH]; simpl; [done|].
  destruct (rstrip_with p s) as [|d r] eqn:Hr.
  - destruct (p c) eqn:E; simpl; [done|]. by rewrite E.
  - simpl in *. by rewrite IH.
Qed.

Lemma lstrip_with_head p s :
  match lstrip_with p s with
  | [] => True
  | c :: _ => p c = false
  end.
Proof.
  induction s as [|c s IH]; simpl; [done|].
  destruct (p c) eqn:E; [done|]. simpl. done.
Qed.

Lemma rstrip_with_headed p c s :
  p c = false → ∃ r, rstrip_with p (c :: s) = c :: r.
Proof.
  intros Hc. simpl. destruct (rstrip_with p s); [rewrite Hc|]; eauto.
Qed.

Lemma strip_with_idemp p s : strip_with p (strip_with p s) = strip_with p s.
Proof.
  unfold strip_with.
  pose proof (lstrip_with_head p s) as Hh.
  destruct (lstrip_with p s) as [|c t]; [done|].
  destruct (rstrip_with_headed p c t Hh) as [r Hr]. rewrite Hr.
  assert (Hl : lstrip_with p (c :: r) = c :: r).
  { simpl. by rewrite Hh. }
  by rewrite Hl, <- Hr, rstrip_with_idemp.
Qed.

Lemma rstrip_with_last_char p s :
  match last (rstrip_with p s) with
  | Some c => p c = false
  | None => True
  end.
Proof.
  induction s as [|c s IH]; simpl; [done|].
  destruct (rstrip_with p s) as [|d r] eqn:Hr.
  - destruct (p c) eqn:E; simpl; done.
  - change (last (c :: d :: r)) with (last (d :: r)). exact IH.
Qed.

Lemma rstrip_with_head_kept p s :
  match s, rstrip_with p s with
  | c :: _, d :: _ => c = d
  | _, _ => True
  end.
Proof.
  destruct s as [|c s]; simpl; [done|].
  destruct (rstrip_with p s); [by destruct (p c)|done].
Qed.

(** What [strip] returns has no white space at either end. *)
Lemma strip_ends s :
  match head (strip s) with Some c => isspace c = false | None => True end ∧
  match last (strip s) with Some c => isspace c = false | None => True end.
Proof.
  unfold strip, strip_with. split; [|apply rstrip_with_last_char].
  pose proof (lstrip_with_head isspace s) as Hh.
  pose proof (rstrip_with_head_kept isspace (lstrip_with isspace s)) as Hk.
  destruct (lstrip_with isspace s) as [|c t]; [done|].
  destruct (rstrip_with isspace (c :: t)) as [|d r]; [done|].
  simpl. by subst d.
Qed.

Lemma repositories_of_cons line lines :
  repositories_of (line :: lines) =
  if decide (strip line ≠ []) then strip line :: repositories_of lines
  else repositories_of lines.
Proof. unfold repositories_of. by rewrite fmap_cons, filter_cons. Qed.

(** X17: the repositories read from the input file are the lines with the
    white space around them removed, the lines left empty being dropped
    and the order kept; each one is non-empty, begins and ends with a
    character that is no white space, and is left as it is by [strip], so
    that reading the list again as a file gives the same list.  White
    space is that of [str.isspace]: a line made of no-break spaces is
    dropped, and a no-break space around a name is removed. *)
Theorem repositories_of_clean lines :
  (∀ repo, repo ∈ repositories_of lines ↔
           repo ≠ [] ∧ ∃ line, line ∈ lines ∧ strip line = repo) ∧
  Forall (λ repo, strip repo = repo ∧
                  (∃ c, head repo = Some c ∧ isspace c = false) ∧
                  (∃ c, last repo = Some c ∧ isspace c = false))
    (repositories_of lines) ∧
  repositories_of (repositories_of lines) = repositories_of lines ∧
  repositories_of [[160%N; 160%N]; 160%N :: lit "o/r" ++ [133%N; 8195%N]] =
    [lit "o/r"].
Proof.
  split; [|split; [|split; [|reflexivity]]].
  - intros repo. unfold repositories_of.
    rewrite list_elem_of_filter, list_elem_of_fmap. split.
    + intros (Hne & line & -> & Hin). eauto.
    + intros (Hne & line & Hin & <-). eauto.
  - apply Forall_forall. intros repo.
    unfold repositories_of. rewrite list_elem_of_filter, list_elem_of_fmap.
    intros (Hne & line & -> & _). split; [apply strip_with_idemp|].
    destruct (strip_ends line) as [Hh Hl].
    destruct (strip line) as [|c r] eqn:Hs using rev_ind; [done|].
    clear IHr. rewrite last_snoc in *. split; [|eauto].
    destruct r as [|d r]; simpl in *; eauto.
  - induction lines as [|line lines IH]; [done|].
    rewrite repositories_of_cons.
    destruct (decide (strip line ≠ [])) as [Hne|He]; [|done].
    rewrite repositories_of_cons.
    assert (Hs : strip (strip line) = strip line) by apply strip_with_idemp.
    rewrite Hs. destruct (decide (strip line ≠ [])); [|done].
    by rewrite IH.
Qed.

Lemma max_repo_length_bound repos (repo : str) :
  repo ∈ repos → length repo ≤ max_repo_length repos.
Proof.
  intros Hin. unfold max_repo_length.
  destruct repos as [|r0 repos]; [by apply elem_of_nil in Hin|].
  revert Hin. generalize (r0 :: repos). clear. intros l.
  induction l as [|r l IH]; intros Hin; [by apply elem_of_nil in Hin|].
  rewrite fmap_cons. simpl.
  apply elem_of_cons in Hin as [->|Hin]; [lia|].
  specialize (IH Hin). lia.
Qed.

(** X18: the repository column of the console summary is between 40 and
    80 characters wide; it is 40 wide when no repository reported, and
    wide enough for every repository name of at most 80 characters. *)
Theorem repo_column_width_bounds repos :
  DEFAULT_WIDTH ≤ repo_column_width repos ≤ MAX_WIDTH ∧
  repo_column_width [] = 40 ∧
  ∀ repo : str, repo ∈ repos → length repo ≤ MAX_WIDTH →
                length repo ≤ repo_column_width repos.
Proof.
  unfold repo_column_width, DEFAULT_WIDTH, MAX_WIDTH.
  split; [lia|]. split; [done|].
  intros repo Hin Hlen.
  pose proof (max_repo_length_bound repos repo Hin). lia.
Qed.

(** X19: the reset time of a 403 is read with [int].  Without the header
    the current time stands in for it, so that the wait is the safety
    margin of 3 (plus whatever the clock moved back between its two
    readings), when that wait is within the range of [datetime] and
    granted; with a header that is no integer literal [int] raises
    [ValueError], which no [except] clause of the walker catches, and the
    walker sleeps no more.  An integer literal may stand between white
    space, no-break spaces included, and be written in the decimal digits
    of any script; the separators U+001C to U+001F are no white space for
    [int], nor is a literal of more than 4300 digits read. *)
Theorem rate_limit_reset_header mr st u x r rest :
  loop_test st = Some u →
  answer x = Returns r → status_code r = 403%Z →
  match ratelimit_reset r with
  | None =>
      let wait_time := Z.max 0 (clock_default x - clock_now x) in
      has_completion_time x wait_time = true →
      grants x (wait_time + 3) = true →
      ∃ st', iteration mr st u x = Continue st' ∧
             url st' = url st ∧
             sleeps (trace st') = sleeps (trace st) ++ [(wait_time + 3)%Z]
  | Some s =>
      int_of_str s = None →
      ∃ st', while_url mr (x :: rest) st = Uncaught ValueError st' ∧
             all_commits st' = all_commits st ∧
             sleeps (trace st') = sleeps (trace st)
  end ∧
  int_of_str (160%N :: lit " 1714640005" ++ [133%N]) = Some 1714640005%Z ∧
  int_of_str [1633%N; 1634%N; chr "_"; 65299%N] = Some 123%Z ∧
  int_of_str (28%N :: lit "5") = None ∧
  int_of_str (replicate 4301 (chr "1")) = None.
Proof.
  intros Hu Hx Hs. split; [|by vm_compute].
  destruct (ratelimit_reset r) as [s|] eqn:Hr.
  - intros Hint. rewrite (while_url_cons _ _ _ _ u Hu).
    unfold iteration, try_block. rewrite Hx, Hs, Hr, Hint. simpl.
    eexists. split; [done|]. by trace_simpl.
  - intros wait_time Hd%has_completion_time_spec Hg%grants_spec.
    unfold iteration, try_block, sleep_and_continue.
    rewrite Hx, Hs, Hr. simpl. fold wait_time. rewrite Hd, Hg.
    eexists. split; [done|]. by trace_simpl.
Qed.

Lemma rate_limit_reset_header_witness :
  ∃ st', while_url DEFAULT_MAX_RETRIES
           [status 403 (Some (lit "in a minute")); page [human_commit] None]
           at_listing = Uncaught ValueError st' ∧
         all_commits st' = [] ∧ sleeps (trace st') = [].
Proof.
  apply (rate_limit_reset_header DEFAULT_MAX_RETRIES at_listing
           "https://api.github.com/repos/o/r/commits"
           (status 403 (Some (lit "in a minute")))
           {| status_code := 403; link := None;
              ratelimit_reset := Some (lit "in a minute"); json_body := None |}
           [page [human_commit] None]); reflexivity.
Defined.

(** ** Lowering ASCII text *)

Lemma assoc_ascii_json k kvs v :
  forallb (λ kv : str * json, ascii_json kv.2) kvs = true →
  assoc k kvs = Some v → ascii_json v = true.
Proof.
  induction kvs as [|[k' v'] kvs IH]; simpl; [done|].
  intros [Hv Hrest]%andb_prop.
  destruct (decide (k = k')); [by intros [= <-]|by apply IH].
Qed.

Lemma get_ascii_json v k d w :
  ascii_json v = true → ascii_json d = true →
  get v k d = Ok w → ascii_json w = true.
Proof.
  intros Hv Hd. destruct v as [| | | | |kvs]; try done. simpl in *.
  destruct (assoc k kvs) as [x|] eqn:Hx; simpl; intros [= <-]; [|done].
  by apply (assoc_ascii_json k kvs).
Qed.

Lemma inner_author_ascii_json commit author :
  ascii_json commit = true → inner_author commit = Ok author →
  ascii_json author = true.
Proof.
  intros Hc. unfold inner_author.
  destruct (get commit "commit" (JObj [])) as [inner|] eqn:Hi; simpl; [|done].
  apply get_ascii_json in Hi; [|done..].
  by apply get_ascii_json.
Qed.

Lemma str_lower_ascii_json {L : Lower} v :
  ascii_json v = true → str_lower v = @str_lower ascii_only v.
Proof.
  destruct v as [| | |s| |]; try done. simpl. intros Hs.
  by rewrite (lower_ascii s (is_ascii_test s Hs)).
Qed.

Lemma is_bot_ascii_json {L : Lower} commit :
  ascii_json commit = true → is_bot commit = @is_bot ascii_only commit.
Proof.
  intros Hc. unfold is_bot.
  destruct (get commit "author" JNull) as [author|] eqn:Ha; simpl; [|done].
  apply get_ascii_json in Ha; [|done..].
  assert (Houter :
    (if truthy author then
       commit_author_type ← get author "type" (JStr "");
       if eq_str commit_author_type "Bot" then Ok true
       else login ← get author "login" (JStr "");
            username ← str_lower login; Ok (endswith username "[bot]")
     else Ok false) =
    (if truthy author then
       commit_author_type ← get author "type" (JStr "");
       if eq_str commit_author_type "Bot" then Ok true
       else login ← get author "login" (JStr "");
            username ← @str_lower ascii_only login;
            Ok (endswith username "[bot]")
     else Ok false)).
  { destruct (truthy author); [|done].
    destruct (get author "type" (JStr "")) as [ty|]; simpl; [|done].
    destruct (eq_str ty "Bot"); [done|].
    destruct (get author "login" (JStr "")) as [login|] eqn:Hl; simpl; [|done].
    apply get_ascii_json in Hl; [|done..].
    by rewrite (str_lower_ascii_json login). }
  rewrite Houter. clear Houter.
  match goal with |- (?m ≫= _) = _ => destruct m as [[]|] end; simpl; try done.
  destruct (inner_author commit) as [commit_author|] eqn:Hi; simpl; [|done].
  apply inner_author_ascii_json in Hi; [|done].
  destruct (get commit_author "email" (JStr "")) as [e|] eqn:He; simpl; [|done].
  apply get_ascii_json in He; [|done..].
  by rewrite (str_lower_ascii_json e).
Qed.

Lemma process_commit_ascii_json {L : Lower} repo st commit :
  ascii_json commit = true →
  process_commit repo st commit = @process_commit ascii_only repo st commit.
Proof.
  intros Hc. unfold process_commit.
  destruct (inner_author commit) as [author|] eqn:Hi; simpl; [|done].
  apply inner_author_ascii_json in Hi; [|done].
  destruct (truthy author); simpl; [|done].
  destruct (get author "email" (JStr "N/A")) as [e|] eqn:He; simpl; [|done].
  apply get_ascii_json in He; [|done..].
  by rewrite (str_lower_ascii_json e), (is_bot_ascii_json commit).
Qed.

Lemma extraction_loop_ascii_json {L : Lower} repo commits : ∀ st,
  forallb ascii_json commits = true →
  extraction_loop repo st commits = @extraction_loop ascii_only repo st commits.
Proof.
  induction commits as [|c commits IH]; intros st; simpl; [done|].
  intros [Hc Hrest]%andb_prop. rewrite (process_commit_ascii_json repo st c Hc).
  destruct (@process_commit ascii_only repo st c); simpl; [by apply IH|done].
Qed.

(** X20: on records in which every string is ASCII text, extraction does
    not depend on the case mappings of [str.lower] beyond the letters A-Z:
    whatever the lowering, the loop ends in the same state, and the call
    returns the same mapping or raises the same exception, as with the
    lowering of the letters A-Z alone. *)
Theorem lowering_of_ascii_text {L : Lower} repo commits :
  forallb ascii_json commits = true →
  extraction_loop repo extraction_start commits =
    @extraction_loop ascii_only repo extraction_start commits ∧
  process_commits_and_contributors commits repo =
    @process_commits_and_contributors ascii_only commits repo.
Proof.
  intros H. unfold process_commits_and_contributors.
  by rewrite (extraction_loop_ascii_json repo commits extraction_start H).
Qed.

Lemma lowering_of_ascii_text_witness :
  forallb ascii_json
    [bot_commit; human_commit; older_commit; bare_commit; null_commit;
     anonymous_bot_commit; placeholder_commit] = true ∧
  @process_commits_and_contributors latin1
    [bot_commit; human_commit; older_commit; bare_commit] "o/r" =
  Ok [(lit "ops@example.org",
       {| name := JStr "Ann"; email := "ops@example.org";
          last_commit := JStr "2024-05-01T09:00:00Z" |})].
Proof.
  split; [reflexivity|].
  destruct (lowering_of_ascii_text (L := latin1) "o/r"
              [bot_commit; human_commit; older_commit; bare_commit] eq_refl)
    as [_ ->].
  reflexivity.
Defined.
